(** * Azure RAGcelerator: the document reprocessing core

    A shallow embedding of the processor package
    ([models.py], [splitters/text_splitter.py], [embeddings/azure_openai.py],
    [indexers/cognitive_search.py], [function_app.py]) and the properties of
    its chunk identity, splitter, embedding batcher and index reconciler.

    Conventions.
    - A Python [str] is a [list ascii]; a character is a code point below 256.
    - Character counts and the sizes of the splitter ([chunk_size],
      [chunk_overlap]) are [nat]; Python [int] data carried in records
      ([chunk_id], item [index], HTTP status codes) and the [batch_size] of
      the batcher, which the code never validates, are [Z].
    - Code that talks to a remote service runs in the monad [M]: it threads a
      [World] (the state of the external services and the trace of calls made
      so far) and either returns a value or raises an exception. *)

From Stdlib Require Import ZArith Lia Ascii String DecimalString Decimal DecimalZ.
From stdpp Require Import base list.

Set Warnings "-abstract-large-number".
Local Open Scope nat_scope.

(** ** Python [str] primitives *)

Module PyStr.

Definition str := list ascii.

(** A string literal as a [str]. *)
Definition lit (s : string) : str := list_ascii_of_string s.

Definition LF : ascii := ascii_of_nat 10.
Definition SP : ascii := ascii_of_nat 32.

(** [bool(s)]: a string is truthy when it is not empty. *)
Definition truthy {A} (l : list A) : bool :=
  match l with [] => false | _ :: _ => true end.

(** [c.isspace()] on the code points below 256: TAB, LF, VT, FF, CR,
    FS, GS, RS, US, SPACE, NEL and NBSP. *)
Definition isspace (c : ascii) : bool :=
  let n := nat_of_ascii c in
  ((9 <=? n) && (n <=? 13)) || ((28 <=? n) && (n <=? 32))
  || (n =? 133) || (n =? 160).

Fixpoint lstrip (s : str) : str :=
  match s with
  | c :: s' => if isspace c then lstrip s' else s
  | [] => []
  end.

Definition rstrip (s : str) : str := rev (lstrip (rev s)).

(** [s.strip()] *)
Definition strip (s : str) : str := rstrip (lstrip s).

(** [s.startswith(p)] *)
Fixpoint startswith (p s : str) : bool :=
  match p, s with
  | [], _ => true
  | _ :: _, [] => false
  | a :: p', b :: s' => Ascii.eqb a b && startswith p' s'
  end.

(** [sep in s] *)
Fixpoint contains (sep s : str) : bool :=
  startswith sep s ||
  match s with
  | [] => false
  | _ :: s' => contains sep s'
  end.

(** [s.split(sep)] for a non-empty [sep]: the text is scanned from the
    left, every occurrence of [sep] that does not overlap an earlier one
    ends a part. [skip] counts the characters of a matched separator that
    are still to be passed over. *)
Fixpoint split_go (sep : str) (skip : nat) (s : str) : list str :=
  match s with
  | [] => [[]]
  | c :: s' =>
      match skip with
      | S k => split_go sep k s'
      | O =>
          if startswith sep s then [] :: split_go sep (length sep - 1) s'
          else
            match split_go sep 0 s' with
            | p :: ps => (c :: p) :: ps
            | [] => [[c]]
            end
      end
  end.

Definition split (sep s : str) : list str := split_go sep 0 s.

(** [s.replace(a, b)] for one-character [a] and [b]. *)
Definition replace_char (a b : ascii) (s : str) : str :=
  map (fun c => if Ascii.eqb c a then b else c) s.

(** [c.lower()] on the ASCII letters. *)
Definition lower_char (c : ascii) : ascii :=
  let n := nat_of_ascii c in
  if (65 <=? n) && (n <=? 90) then ascii_of_nat (n + 32) else c.

Definition lower (s : str) : str := map lower_char s.

(** [str(n)] for an [int]: decimal digits, with a minus sign when
    negative. *)
Definition str_of_int (n : Z) : str :=
  list_ascii_of_string (NilZero.string_of_int (Z.to_int n)).

(** The slices [l[i:i+n]] for [i] in [range(0, len(l), n)], the loop
    pattern of [_split_by_size], [embed_texts], [upsert_chunks] and
    [delete_by_source_path]. Every caller has [n > 0]. *)
Fixpoint slices_go {A} (fuel n : nat) (l : list A) : list (list A) :=
  match fuel, l with
  | _, [] => []
  | O, _ :: _ => []
  | S fuel', _ :: _ => take n l :: slices_go fuel' n (drop n l)
  end.

Definition slices {A} (n : nat) (l : list A) : list (list A) :=
  slices_go (length l) n l.

(** [a == b] on strings. *)
Fixpoint str_eqb (a b : str) : bool :=
  match a, b with
  | [], [] => true
  | x :: a', y :: b' => Ascii.eqb x y && str_eqb a' b'
  | _, _ => false
  end.

(** [s.split(sep)[-1]], which for a [sep] that occurs in [s] is also
    [s.rsplit(sep, 1)[1]]: the text after the last occurrence of [sep]. *)
Definition after_last (sep s : str) : str := default [] (last (split sep s)).

(** [enumerate(l)] *)
Definition enumerate {A} (l : list A) : list (nat * A) :=
  imap (fun i x => (i, x)) l.

End PyStr.
Import PyStr.

(** ** Exceptions *)

(** The exceptions the processor distinguishes. [RateLimitError] and
    [APIConnectionError] are the [openai] classes of those names;
    [APIError sc] is any other [openai.APIError], [sc] the value of its
    [status_code] attribute; the remaining constructors stand for
    exceptions outside the [openai.APIError] hierarchy. *)
Inductive exn : Type :=
| RateLimitError
| APIConnectionError
| APIError (status_code : option Z)
| ValueError (msg : str)
| IndexError
| TypeError
| OtherError (msg : str).

Inductive result (A : Type) : Type :=
| Ok (a : A)
| Raise (e : exn).
Arguments Ok {A} a.
Arguments Raise {A} e.

(** ** Data model ([models.py]) *)

Section Models.
Context {vector : Type}.

Record Chunk : Type := mkChunk {
  chunk_id : Z;
  content : str;
  source_path : str;
  file_name : str;
  page_number : option Z;
  total_chunks : option Z;
  embedding : option vector;
}.

(** [Chunk.document_id]: the key of a chunk in the index. *)
Definition document_id_of (source_path : str) (chunk_id : Z) : str :=
  let safe_path :=
    replace_char "\"%char "_"%char (replace_char "/"%char "_"%char source_path) in
  safe_path ++ lit "#chunk_" ++ str_of_int chunk_id.

Definition document_id (c : Chunk) : str :=
  document_id_of (source_path c) (chunk_id c).

(** The document sent to the index. [processedAt] is the timestamp handed
    in by the caller; absent optional fields are [None]. *)
Record SearchDocument : Type := mkSearchDocument {
  doc_id : str;
  doc_content : str;
  doc_sourcePath : str;
  doc_fileName : str;
  doc_chunkId : Z;
  doc_processedAt : Z;
  doc_contentVector : option vector;
  doc_pageNumber : option Z;
  doc_totalChunks : option Z;
}.

Definition to_search_document (c : Chunk) (processed_at : Z) : SearchDocument :=
  {| doc_id := document_id c;
     doc_content := content c;
     doc_sourcePath := source_path c;
     doc_fileName := file_name c;
     doc_chunkId := chunk_id c;
     doc_processedAt := processed_at;
     doc_contentVector := embedding c;
     doc_pageNumber := page_number c;
     doc_totalChunks := total_chunks c |}.

(** An error message: a text built by the processor, or [str(e)] of the
    exception it caught. *)
Inductive message : Type :=
| Text (s : str)
| StrOf (e : exn).

(** [processing_time_ms], a wall-clock measurement, is left out. *)
Record ProcessingResult : Type := mkProcessingResult {
  pr_source_path : str;
  pr_file_name : str;
  pr_success : bool;
  pr_chunks_created : nat;
  pr_chunks_indexed : nat;
  pr_error_message : option message;
}.

End Models.
Arguments Chunk vector : clear implicits.
Arguments SearchDocument vector : clear implicits.

(** ** The splitter ([splitters/text_splitter.py]) *)

Module TextSplitter.
Section Splitter.
Context {vector : Type}.

Record t : Type := mk {
  chunk_size : nat;
  chunk_overlap : nat;
  separators : list str;
}.

Definition DEFAULT_SEPARATORS : list str :=
  [ [LF; LF]; [LF]; lit ". "; lit "! "; lit "? "; lit "; "; lit ", ";
    lit " "; [] ].

(** [x or default] for an optional count: [None] and [0] are falsy. *)
Definition or_default (x : option nat) (d : nat) : nat :=
  match x with
  | Some (S n) => S n
  | _ => d
  end.

(** [__init__]: the defaults come from the settings; an overlap that is
    not below the chunk size is rejected. *)
Definition init (settings_chunk_size settings_chunk_overlap : nat)
    (chunk_size chunk_overlap : option nat) (separators : option (list str))
  : result t :=
  let cs := or_default chunk_size settings_chunk_size in
  let ov := or_default chunk_overlap settings_chunk_overlap in
  let seps :=
    match separators with
    | Some (s :: l) => s :: l
    | _ => DEFAULT_SEPARATORS
    end in
  if cs <=? ov then Raise (ValueError (lit "Chunk overlap must be less than chunk size"))
  else Ok (mk cs ov seps).

Variable self : t.

(** [_split_by_size] *)
Definition _split_by_size (text : str) : list str :=
  slices (chunk_size self) text.

(** [_split_text] *)
Fixpoint _split_text (separators : list str) (text : str) : list str :=
  match separators with
  | [] => _split_by_size text
  | separator :: remaining_separators =>
      if negb (truthy separator) then _split_by_size text
      else if negb (contains separator text) then
        _split_text remaining_separators text
      else
        flat_map
          (fun part =>
             if length part <=? chunk_size self then [part]
             else _split_text remaining_separators part)
          (split separator text)
  end.

(** One iteration of the loop of [_merge_chunks] on the pair
    [(merged, current_chunk)]. *)
Definition merge_step (st : list str * str) (chunk : str) : list str * str :=
  let '(merged, current_chunk) := st in
  if truthy current_chunk
     && (chunk_size self <? length current_chunk + length chunk + 1)
  then
    let overlap_start := Nat.max 0 (length current_chunk - chunk_overlap self) in
    (merged ++ [current_chunk], drop overlap_start current_chunk ++ [SP] ++ chunk)
  else if truthy current_chunk then (merged, current_chunk ++ [SP] ++ chunk)
  else (merged, chunk).

(** [_merge_chunks] *)
Definition _merge_chunks (chunks : list str) : list str :=
  match chunks with
  | [] => []
  | _ :: _ =>
      let '(merged, current_chunk) := fold_left merge_step chunks ([], []) in
      if truthy current_chunk then merged ++ [current_chunk] else merged
  end.

(** [split] *)
Definition split (text source_path file_name : str) : list (Chunk vector) :=
  if negb (truthy text) || negb (truthy (strip text)) then []
  else
    let text := strip text in
    let raw_chunks := _split_text (separators self) text in
    let merged_chunks := _merge_chunks raw_chunks in
    let total_chunks := length merged_chunks in
    flat_map
      (fun '(i, chunk_text) =>
         if truthy (strip chunk_text) then
           [ mkChunk (Z.of_nat i) (strip chunk_text) source_path file_name
               None (Some (Z.of_nat total_chunks)) None ]
         else [])
      (enumerate merged_chunks).

End Splitter.
End TextSplitter.

(** ** External services and the effect monad *)

(** One element of [response.data] of the embedding service. *)
Record Embedding (vector : Type) : Type := mkEmbedding {
  index : Z;
  embedding_vec : vector;
}.
Arguments mkEmbedding {vector} index embedding_vec.
Arguments index {vector} e.
Arguments embedding_vec {vector} e.

(** The per-item result of an upload or delete batch of the index store. *)
Record IndexingResult : Type := mkIndexingResult {
  key : str;
  succeeded : bool;
  error_message : option str;
}.

(** The remote collaborators: the embedding service, the index store, the
    blob store, the PDF parser and the clock. [St] is their joint state;
    every call may change it and may raise. *)
Class Services (St vector : Type) : Type := {
  embeddings_create : St -> list str -> St * result (list (Embedding vector));
  search_ids : St -> str -> St * result (list str);
  delete_documents : St -> list str -> St * result (list IndexingResult);
  upload_documents :
    St -> list (SearchDocument vector) -> St * result (list IndexingResult);
  download_document : St -> str -> St * result (list Byte.byte);
  extract_text : list Byte.byte -> str -> result str;
  time_sleep : St -> Z -> St;
  utcnow : St -> Z;
}.

(** The calls made to the outside, each with what it answered. *)
Inductive event (vector : Type) : Type :=
| EvEmbeddingsCreate (input : list str) (response : result (list (Embedding vector)))
| EvSleep (delay : Z)
| EvSearch (source_path : str) (response : result (list str))
| EvDeleteDocuments (batch : list str) (response : result (list IndexingResult))
| EvUploadDocuments (batch : list (SearchDocument vector))
    (response : result (list IndexingResult))
| EvDownload (blob_url : str) (response : result (list Byte.byte)).
Arguments EvEmbeddingsCreate {vector} input response.
Arguments EvSleep {vector} delay.
Arguments EvSearch {vector} source_path response.
Arguments EvDeleteDocuments {vector} batch response.
Arguments EvUploadDocuments {vector} batch response.
Arguments EvDownload {vector} blob_url response.

Record World (St vector : Type) : Type := mkWorld {
  ext : St;
  trace : list (event vector);
}.
Arguments mkWorld {St vector} ext trace.
Arguments ext {St vector} w.
Arguments trace {St vector} w.

Section Monad.
Context {St vector : Type}.

Definition M (A : Type) : Type := World St vector -> World St vector * result A.

Definition ret {A} (a : A) : M A := fun w => (w, Ok a).

Definition raise {A} (e : exn) : M A := fun w => (w, Raise e).

Definition bind {A B} (m : M A) (k : A -> M B) : M B :=
  fun w =>
    match m w with
    | (w', Ok a) => k a w'
    | (w', Raise e) => (w', Raise e)
    end.

(** [try: m except Exception as e: h e] *)
Definition catch {A} (m : M A) (h : exn -> M A) : M A :=
  fun w =>
    match m w with
    | (w', Ok a) => (w', Ok a)
    | (w', Raise e) => h e w'
    end.

Definition lift {A} (r : result A) : M A := fun w => (w, r).

(** A call to a service: the state of the services advances and the call
    is recorded with its answer. *)
Definition io {A} (f : St -> St * result A) (ev : result A -> event vector) : M A :=
  fun w =>
    let '(s', r) := f (ext w) in
    (mkWorld s' (trace w ++ [ev r]), r).

End Monad.
Arguments M St vector A : clear implicits.

Notation "'let*' x := m 'in' k" := (bind m (fun x => k))
  (at level 10, x name, m at level 100, k at level 200).

(** ** The embedding batcher ([embeddings/azure_openai.py]) *)

Module EmbeddingService.
Section Batcher.
Context {St vector : Type} `{!Services St vector}.
Local Abbreviation M := (M St vector).

Definition MAX_RETRIES : nat := 3.
(** Seconds. The source holds them as floats ([1.0], [60.0]); every delay
    the loop computes is a small integer, which a float holds exactly. *)
Definition INITIAL_RETRY_DELAY : Z := 1.
Definition MAX_RETRY_DELAY : Z := 60.

(** [batch_size] is whatever [int] the caller or the settings give: nothing
    checks that it is positive. *)
Record t : Type := mk { batch_size : Z }.

(** [x or default] for an optional [int]: [None] and [0] are falsy. *)
Definition int_or_default (x : option Z) (d : Z) : Z :=
  match x with
  | Some v => if (v =? 0)%Z then d else v
  | None => d
  end.

(** [__init__]: [batch_size or settings.embedding_batch_size]. *)
Definition init (settings_embedding_batch_size : Z) (batch_size : option Z) : t :=
  mk (int_or_default batch_size settings_embedding_batch_size).

Definition sleep (delay : Z) : M unit :=
  fun w => (mkWorld (time_sleep (ext w) delay) (trace w ++ [EvSleep delay]), Ok tt).

(** The sanitising of one input text in [_embed_batch]. *)
Definition clean_text (text : str) : str :=
  if truthy text && truthy (strip text) then
    let max_chars := 30000 in
    if max_chars <? length text then take max_chars text else text
  else lit " ".

(** [l[i] = x] on a Python list: a negative index counts from the end, an
    index out of range raises [IndexError]. *)
Definition setitem {A} (l : list A) (i : Z) (x : A) : result (list A) :=
  let n := Z.of_nat (length l) in
  if ((0 <=? i) && (i <? n))%Z then Ok (<[Z.to_nat i := x]> l)
  else if ((- n <=? i) && (i <? 0))%Z then Ok (<[Z.to_nat (n + i) := x]> l)
  else Raise IndexError.

(** [for item in response.data: embeddings[item.index] = item.embedding] *)
Fixpoint place (data : list (Embedding vector)) (embeddings : list (option vector))
  : result (list (option vector)) :=
  match data with
  | [] => Ok embeddings
  | item :: data' =>
      match setitem embeddings (index item) (Some (embedding_vec item)) with
      | Ok embeddings' => place data' embeddings'
      | Raise e => Raise e
      end
  end.

(** [_embed_batch] *)
Definition _embed_batch (texts : list str) : M (list (option vector)) :=
  let clean_texts := map clean_text texts in
  let* response := io (fun s => embeddings_create s clean_texts)
                 (EvEmbeddingsCreate clean_texts) in
  lift (place response (replicate (length clean_texts) None)).

(** [e.status_code and 500 <= e.status_code < 600] *)
Definition is_server_error (status_code : option Z) : bool :=
  match status_code with
  | Some sc => negb (sc =? 0)%Z && (500 <=? sc)%Z && (sc <? 600)%Z
  | None => false
  end.

(** The loop of [_embed_batch_with_retry] with [attempts] iterations left. *)
Fixpoint retry_loop (attempts : nat) (delay : Z) (last_error : option exn)
    (texts : list str) : M (list (option vector)) :=
  match attempts with
  | O =>
      match last_error with
      | Some e => raise e
      | None => raise TypeError
      end
  | S attempts' =>
      catch (_embed_batch texts)
        (fun e =>
           match e with
           | RateLimitError =>
               let* u := sleep delay in
               retry_loop attempts' (Z.min (delay * 2) MAX_RETRY_DELAY) (Some e) texts
           | APIConnectionError =>
               let* u := sleep delay in
               retry_loop attempts' (Z.min (delay * 2) MAX_RETRY_DELAY) (Some e) texts
           | APIError status_code =>
               if is_server_error status_code then
                 let* u := sleep delay in
                 retry_loop attempts' (Z.min (delay * 2) MAX_RETRY_DELAY) (Some e) texts
               else raise e
           | _ => raise e
           end)
  end.

(** [_embed_batch_with_retry] *)
Definition _embed_batch_with_retry (texts : list str) : M (list (option vector)) :=
  retry_loop MAX_RETRIES INITIAL_RETRY_DELAY None texts.

(** The batch loop of [embed_texts]. *)
Fixpoint embed_batches (batches : list (list str))
    (all_embeddings : list (option vector)) : M (list (option vector)) :=
  match batches with
  | [] => ret all_embeddings
  | batch :: batches' =>
      let* batch_embeddings := _embed_batch_with_retry batch in
      embed_batches batches' (all_embeddings ++ batch_embeddings)
  end.

(** [embed_texts]. The loop runs over [range(0, len(texts), batch_size)]:
    a step of zero makes [range] raise [ValueError], and with a negative
    step the range is empty, the loop body never runs and the empty
    [all_embeddings] is returned. *)
Definition embed_texts (self : t) (texts : list str) : M (list (option vector)) :=
  if negb (truthy texts) then ret []
  else if (batch_size self =? 0)%Z then
    raise (ValueError (lit "range() arg 3 must not be zero"))
  else if (batch_size self <? 0)%Z then ret []
  else embed_batches (slices (Z.to_nat (batch_size self)) texts) [].

(** What a remote that embeds every text with [E] answers when it keeps
    the order of the input: each result carries the position of its text. *)
Definition in_order (E : str -> vector) (input : list str) : list (Embedding vector) :=
  imap (fun j text => mkEmbedding (Z.of_nat j) (E text)) input.

(** A remote that always answers, and lists the results in an order of its
    choice. *)
Definition reordering_remote (E : str -> vector) : Prop :=
  forall s input,
    exists s' data,
      embeddings_create s input = (s', Ok data) /\ data ≡ₚ in_order E input.

(** The failures the retry policy names retryable: a rate limit, a failed
    connection, a server error of the 5xx class. *)
Definition retryable (e : exn) : bool :=
  match e with
  | RateLimitError => true
  | APIConnectionError => true
  | APIError status_code => is_server_error status_code
  | _ => false
  end.

(** The wait after the retryable failure number [k] (from 0): the initial
    delay doubled [k] times, capped. *)
Definition backoff (k : nat) : Z :=
  Z.min (INITIAL_RETRY_DELAY * 2 ^ Z.of_nat k) MAX_RETRY_DELAY.

(** The trace of consecutive failed attempts, the first of them numbered
    [k]: each is a call that raised, followed by its wait. *)
Fixpoint retry_events (input : list str) (k : nat) (failures : list exn)
  : list (event vector) :=
  match failures with
  | [] => []
  | e :: failures' =>
      EvEmbeddingsCreate input (Raise e) :: EvSleep (backoff k)
        :: retry_events input (S k) failures'
  end.

(** The error raised when the attempts are used up: that of the last
    failure; [last_error] when there was none. *)
Definition exhausted_error (last_error : option exn) (failures : list exn) : exn :=
  match last failures, last_error with
  | Some e, _ => e
  | None, Some e => e
  | None, None => TypeError
  end.

End Batcher.
End EmbeddingService.

(** ** The index reconciler ([indexers/cognitive_search.py]) *)

Module SearchIndexer.
Section Indexer.
Context {St vector : Type} `{!Services St vector}.
Local Abbreviation M := (M St vector).

Definition BATCH_SIZE : nat := 1000.

Definition count_succeeded (results : list IndexingResult) : nat :=
  length (filter (fun r => succeeded r = true) results).

(** [_upsert_batch] *)
Definition _upsert_batch (documents : list (SearchDocument vector)) : M (nat * nat) :=
  catch
    (let* results := io (fun s => upload_documents s documents)
                   (EvUploadDocuments documents) in
     let success := count_succeeded results in
     let failed := length results - success in
     ret (success, failed))
    (fun e => ret (0, length documents)).

(** The batch loop of [upsert_chunks]. *)
Fixpoint upsert_batches (batches : list (list (SearchDocument vector)))
    (total_success total_failed : nat) : M (nat * nat) :=
  match batches with
  | [] => ret (total_success, total_failed)
  | batch :: batches' =>
      let* counts := _upsert_batch batch in
      let '(success, failed) := counts in
      upsert_batches batches' (total_success + success) (total_failed + failed)
  end.

(** [chunk.embedding = embedding] for the pairs of [zip(chunks, embeddings)]. *)
Definition attach (chunks : list (Chunk vector)) (embeddings : list (option vector))
  : list (Chunk vector) :=
  zip_with
    (fun c e => mkChunk (chunk_id c) (content c) (source_path c) (file_name c)
                  (page_number c) (total_chunks c) e)
    chunks embeddings
  ++ drop (length embeddings) chunks.

(** [upsert_chunks]. [embeddings] is [None] when the argument is left out;
    an entry of the list is [None] where the batcher left a hole. *)
Definition upsert_chunks (chunks : list (Chunk vector))
    (embeddings : option (list (option vector))) : M (nat * nat) :=
  if negb (truthy chunks) then ret (0, 0)
  else
    let given := match embeddings with Some l => l | None => [] end in
    if truthy given && negb (length given =? length chunks) then
      raise (ValueError (lit "Embeddings count must match chunks count"))
    else
      let chunks := if truthy given then attach chunks given else chunks in
      fun w =>
        let processed_at := utcnow (ext w) in
        let documents := map (fun c => to_search_document c processed_at) chunks in
        upsert_batches (slices BATCH_SIZE documents) 0 0 w.

(** The batch loop of [delete_by_source_path]. *)
Fixpoint delete_batches (batches : list (list str)) (total_deleted : nat) : M nat :=
  match batches with
  | [] => ret total_deleted
  | batch :: batches' =>
      let* delete_results := io (fun s => delete_documents s batch)
                           (EvDeleteDocuments batch) in
      delete_batches batches' (total_deleted + count_succeeded delete_results)
  end.

(** [delete_by_source_path] *)
Definition delete_by_source_path (source_path : str) : M nat :=
  catch
    (let* doc_ids := io (fun s => search_ids s source_path) (EvSearch source_path) in
     if negb (truthy doc_ids) then ret 0
     else delete_batches (slices BATCH_SIZE doc_ids) 0)
    (fun e => raise e).

(** The store answers an upload with one result per document submitted. *)
Definition one_result_per_document : Prop :=
  forall s documents s' results,
    upload_documents s documents = (s', Ok results) ->
    length results = length documents.

End Indexer.
End SearchIndexer.

(** ** The pipeline ([function_app.py], [extractors/pdf_extractor.py]) *)

Module DocumentProcessor.
Section Processor.
Context {St vector : Type} `{!Services St vector}.
Local Abbreviation M := (M St vector).

(** [PDFExtractor._get_extension] *)
Definition _get_extension (file_name : str) : str :=
  if contains (lit ".") file_name then
    lit "." ++ lower (after_last (lit ".") file_name)
  else [].

(** [is_supported], with [SUPPORTED_EXTENSIONS = {".pdf"}]. *)
Definition is_supported (file_name : str) : bool :=
  str_eqb (_get_extension file_name) (lit ".pdf").

Record t : Type := mk {
  splitter : TextSplitter.t;
  embedding_service : EmbeddingService.t;
}.

Definition failed (blob_url file_name : str) (msg : message) : ProcessingResult :=
  mkProcessingResult blob_url file_name false 0 0 (Some msg).

(** Step 5 of [process], "Delete existing chunks and upsert new ones":
    [self.indexer.delete_by_source_path(blob_url)], then
    [self.indexer.upsert_chunks(chunks, embeddings)]. *)
Definition delete_and_upsert (blob_url : str) (chunks : list (Chunk vector))
    (embeddings : list (option vector)) : M (nat * nat) :=
  let* deleted := SearchIndexer.delete_by_source_path blob_url in
  SearchIndexer.upsert_chunks chunks (Some embeddings).

(** [process] *)
Definition process (self : t) (blob_url : str) : M ProcessingResult :=
  let file_name := after_last (lit "/") blob_url in
  catch
    (if negb (is_supported file_name) then
       ret (failed blob_url file_name (Text (lit "Unsupported file type: " ++ file_name)))
     else
       let* document := io (fun s => download_document s blob_url) (EvDownload blob_url) in
       let* text := lift (extract_text document file_name) in
       if negb (truthy (strip text)) then
         ret (failed blob_url file_name
                (Text (lit "No text content extracted from document")))
       else
         let chunks := TextSplitter.split (splitter self) text blob_url file_name in
         if negb (truthy chunks) then
           ret (failed blob_url file_name (Text (lit "No chunks created from document")))
         else
           let chunk_texts := map content chunks in
           let* embeddings :=
             EmbeddingService.embed_texts (embedding_service self) chunk_texts in
           let* counts := delete_and_upsert blob_url chunks embeddings in
           let '(success_count, failed_count) := counts in
           ret (mkProcessingResult blob_url file_name
                  (failed_count =? 0)
                  (length chunks)
                  success_count
                  (if failed_count =? 0 then None
                   else Some (Text (str_of_int (Z.of_nat failed_count)
                                      ++ lit " chunks failed to index")))))
    (fun e => ret (failed blob_url file_name (StrOf e))).

End Processor.
End DocumentProcessor.

(** ** A scripted double of the services

    In the manner of the mocks of the test suite: the embedding service
    raises the scripted failures in order and then answers every call, the
    results listed last to first (a remote that reorders); the store answers
    the scripted searches, raises the scripted failures and otherwise accepts
    every document but those whose key is rejected. A vector is a number,
    the length of the embedded text. *)

Module Fake.

Record state : Type := mk {
  embed_failures : list exn;
  search_answers : list (result (list str));
  delete_failures : list exn;
  upload_failures : list exn;
  rejected_keys : list str;
  blob : list Byte.byte;
}.

Definition answer (input : list str) : list (Embedding nat) :=
  rev (imap (fun j text => mkEmbedding (Z.of_nat j) (length text)) input).

Definition create (s : state) (input : list str) : state * result (list (Embedding nat)) :=
  match embed_failures s with
  | e :: rest =>
      (mk rest (search_answers s) (delete_failures s) (upload_failures s)
         (rejected_keys s) (blob s), Raise e)
  | [] => (s, Ok (answer input))
  end.

Definition search (s : state) (source_path : str) : state * result (list str) :=
  match search_answers s with
  | r :: rest =>
      (mk (embed_failures s) rest (delete_failures s) (upload_failures s)
         (rejected_keys s) (blob s), r)
  | [] => (s, Ok [])
  end.

Definition delete (s : state) (batch : list str) : state * result (list IndexingResult) :=
  match delete_failures s with
  | e :: rest =>
      (mk (embed_failures s) (search_answers s) rest (upload_failures s)
         (rejected_keys s) (blob s), Raise e)
  | [] => (s, Ok (map (fun k => mkIndexingResult k true None) batch))
  end.

Definition accept (s : state) (d : SearchDocument nat) : IndexingResult :=
  if existsb (str_eqb (doc_id d)) (rejected_keys s)
  then mkIndexingResult (doc_id d) false (Some (lit "Index error"))
  else mkIndexingResult (doc_id d) true None.

Definition upload (s : state) (documents : list (SearchDocument nat))
  : state * result (list IndexingResult) :=
  match upload_failures s with
  | e :: rest =>
      (mk (embed_failures s) (search_answers s) (delete_failures s) rest
         (rejected_keys s) (blob s), Raise e)
  | [] => (s, Ok (map (accept s) documents))
  end.

Definition services : Services state nat := {|
  embeddings_create := create;
  search_ids := search;
  delete_documents := delete;
  upload_documents := upload;
  download_document := fun s blob_url => (s, Ok (blob s));
  extract_text := fun content file_name => Ok (map Ascii.ascii_of_byte content);
  time_sleep := fun s delay => s;
  utcnow := fun s => 0%Z;
|}.

(** The double with nothing scripted and no state: every call succeeds. *)
Definition steady : Services unit nat := {|
  embeddings_create := fun s input => (s, Ok (answer input));
  search_ids := fun s source_path => (s, Ok []);
  delete_documents :=
    fun s batch => (s, Ok (map (fun k => mkIndexingResult k true None) batch));
  upload_documents :=
    fun s documents =>
      (s, Ok (map (fun d : SearchDocument nat => mkIndexingResult (doc_id d) true None)
                documents));
  download_document := fun s blob_url => (s, Ok []);
  extract_text := fun content file_name => Ok (map Ascii.ascii_of_byte content);
  time_sleep := fun s delay => s;
  utcnow := fun s => 0%Z;
|}.

(** Nothing scripted, nothing rejected. *)
Definition quiet : state := mk [] [] [] [] [] [].

Definition world (s : state) : World state nat := mkWorld s [].

(** The two chunks of the fixture [sample_chunks] of the indexer tests. *)
Definition sample_chunks : list (Chunk nat) :=
  [ mkChunk 0 (lit "First chunk content") (lit "/documents/test.pdf")
      (lit "test.pdf") None (Some 2%Z) None;
    mkChunk 1 (lit "Second chunk content") (lit "/documents/test.pdf")
      (lit "test.pdf") None (Some 2%Z) None ].

(** A processor with the splitter of the test suite, a blob that holds a
    short text, and the keys of two stale entries. *)
Definition processor : DocumentProcessor.t :=
  DocumentProcessor.mk (TextSplitter.mk 100 20 TextSplitter.DEFAULT_SEPARATORS)
    (EmbeddingService.mk 16).

Definition hello : list Byte.byte := map Ascii.byte_of_ascii (lit "Hello world.").

Definition stale : result (list str) := Ok [lit "a.pdf#chunk_0"; lit "a.pdf#chunk_1"].

End Fake.

(** ** The invariants of a document's chunk set *)

(** The [chunk_id] values are [0, 1, ..., N-1] in order. *)
Definition contiguous_indices {vector} (chunks : list (Chunk vector)) : Prop :=
  map chunk_id chunks = map Z.of_nat (seq 0 (length chunks)).

(** Every chunk records the number of chunks of the set as [total_chunks]. *)
Definition total_chunks_final {vector} (chunks : list (Chunk vector)) : Prop :=
  Forall (fun c => total_chunks c = Some (Z.of_nat (length chunks))) chunks.

(** A text with a long run of blank lines, and the splitter of the test
    suite ([chunk_size=100], [chunk_overlap=20]). *)
Definition blank_run_text : str := lit "abc" ++ replicate 400 LF ++ lit "def".

Definition blank_run_splitter : TextSplitter.t :=
  TextSplitter.mk 100 20 TextSplitter.DEFAULT_SEPARATORS.

(** What the merge pass keeps true of its buffer and of every chunk it
    flushes: the text fits the chunk size, or it is no longer than an
    overlap tail, one separator and one segment. *)
Definition merge_bounded (self : TextSplitter.t) (segments : list str) (c : str) : Prop :=
  length c <= TextSplitter.chunk_size self
  \/ exists s, In s segments
       /\ length c <= TextSplitter.chunk_overlap self + 1 + length s.

(** The size bound of a chunk: the chunk size, plus the length of at most
    one of the atomic segments. *)
Definition size_bounded (self : TextSplitter.t) (segments : list str) (c : str) : Prop :=
  length c <= TextSplitter.chunk_size self
  \/ exists s, In s segments
       /\ length c <= TextSplitter.chunk_size self + length s.

(** ** The order of the calls of a reprocessing run *)

(** The step of the pipeline a call belongs to: the download, the embedding
    (calls and waits), the removal of the stale entries (the search and the
    deletes), the upsert (the uploads). *)
Inductive phase : Type := Download | Embed | Removal | Upsert.

Definition phase_of {vector} (ev : event vector) : phase :=
  match ev with
  | EvDownload _ _ => Download
  | EvEmbeddingsCreate _ _ => Embed
  | EvSleep _ => Embed
  | EvSearch _ _ => Removal
  | EvDeleteDocuments _ _ => Removal
  | EvUploadDocuments _ _ => Upsert
  end.

(** The call [ev] is a search or a delete of the removal, and raised [e]. *)
Definition removal_raised {vector} (ev : event vector) (e : exn) : Prop :=
  match ev with
  | EvSearch _ (Raise e') => e' = e
  | EvDeleteDocuments _ (Raise e') => e' = e
  | _ => False
  end.





(** The call is a delete. *)
Definition is_delete {vector} (ev : event vector) : Prop :=
  match ev with
  | EvDeleteDocuments _ _ => True
  | _ => False
  end.

(** The computation [m] only adds calls that satisfy [P] to the trace. *)
Definition appends {St vector A} (P : event vector -> Prop) (m : M St vector A) : Prop :=
  forall w w' r, m w = (w', r) ->
    exists events, trace w' = trace w ++ events /\ List.Forall P events.

(** The computation [m] only adds calls of the removal to the trace, and
    when one of them raised, [m] raises the same error. *)
Definition removal_run {St vector A} (m : M St vector A) : Prop :=
  forall w w' r, m w = (w', r) ->
    exists events,
      trace w' = trace w ++ events
      /\ List.Forall (fun ev => phase_of ev = Removal) events
      /\ forall ev e, In ev events -> removal_raised ev e -> r = Raise e.

(** ** Overlap and content of the merged chunks *)

(** The part of a flushed chunk that seeds the next buffer:
    [current_chunk[overlap_start:]]. *)
Definition overlap_tail (self : TextSplitter.t) (p : str) : str :=
  drop (Nat.max 0 (length p - TextSplitter.chunk_overlap self)) p.

(** Each chunk of the list but the first begins with the overlap tail of
    the chunk before it and a space. *)
Definition overlapping (self : TextSplitter.t) (l : list str) : Prop :=
  forall i p q, l !! i = Some p -> l !! S i = Some q ->
    exists rest, q = overlap_tail self p ++ [SP] ++ rest.

(** [sep.join(l)] *)
Fixpoint join (sep : str) (l : list str) : str :=
  match l with
  | [] => []
  | x :: l' =>
      match l' with
      | [] => x
      | _ :: _ => x ++ sep ++ join sep l'
      end
  end.

(** A chunk without the overlap it repeats from the chunk before it. *)
Definition without_overlap (self : TextSplitter.t) (prev m : str) : str :=
  drop (length (overlap_tail self prev) + 1) m.

Fixpoint fresh_after (self : TextSplitter.t) (prev : str) (ms : list str) : list str :=
  match ms with
  | [] => []
  | m :: ms' => without_overlap self prev m :: fresh_after self m ms'
  end.

(** The chunks, each but the first without its overlap. *)
Definition fresh (self : TextSplitter.t) (ms : list str) : list str :=
  match ms with
  | [] => []
  | m :: ms' => m :: fresh_after self m ms'
  end.

(** The segments from the first non-empty one on. *)
Fixpoint drop_leading_empty (l : list str) : list str :=
  match l with
  | [] :: l' => drop_leading_empty l'
  | _ => l
  end.

(** What the loop of [_merge_chunks] keeps true of the segments [done] it
    has consumed: while they are all empty nothing is held; afterwards the
    flushed chunks and the buffer, without their overlaps and joined by
    spaces, are the segments joined by spaces. *)
Definition merge_content_inv (self : TextSplitter.t) (st : list str * str)
    (done : list str) : Prop :=
  (forall p, last (fst st) = Some p ->
     exists rest, snd st = overlap_tail self p ++ [SP] ++ rest)
  /\ ((snd st = [] /\ fst st = [] /\ drop_leading_empty done = [])
      \/ (snd st <> [] /\ drop_leading_empty done <> []
          /\ join [SP] (fresh self (fst st ++ [snd st]))
             = join [SP] (drop_leading_empty done))).

(** The characters of a printed integer: the digits and the minus sign. *)
Definition int_char (c : ascii) : Prop :=
  In c (lit "-0123456789").

(** ** What the batcher sends *)

(** A call to the embedding service carries between one and [batch] texts,
    none empty and none longer than 30000 characters; a wait lasts between
    one second and the ceiling. *)
Definition request_within {vector} (batch : nat) (ev : event vector) : Prop :=
  match ev with
  | EvEmbeddingsCreate input _ =>
      0 < length input <= batch
      /\ List.Forall (fun text => text <> [] /\ length text <= 30000) input
  | EvSleep delay => (1 <= delay <= EmbeddingService.MAX_RETRY_DELAY)%Z
  | _ => True
  end.

(** The inputs of the calls to the embedding service, in order. *)
Fixpoint request_inputs {vector} (events : list (event vector)) : list (list str) :=
  match events with
  | [] => []
  | EvEmbeddingsCreate input _ :: events' => input :: request_inputs events'
  | _ :: events' => request_inputs events'
  end.

(** The seconds waited, in all. *)
Fixpoint total_wait {vector} (events : list (event vector)) : Z :=
  match events with
  | [] => 0
  | EvSleep delay :: events' => delay + total_wait events'
  | _ :: events' => total_wait events'
  end.

(** ** What the reconciler sends *)

(** The batches of the uploads, in order. *)
Fixpoint upload_batches {vector} (events : list (event vector))
  : list (list (SearchDocument vector)) :=
  match events with
  | [] => []
  | EvUploadDocuments batch _ :: events' => batch :: upload_batches events'
  | _ :: events' => upload_batches events'
  end.

(** The batches of the deletes, in order. *)
Fixpoint delete_batches_sent {vector} (events : list (event vector)) : list (list str) :=
  match events with
  | [] => []
  | EvDeleteDocuments batch _ :: events' => batch :: delete_batches_sent events'
  | _ :: events' => delete_batches_sent events'
  end.

(** The store answers a delete with one result per key submitted. *)
Definition one_result_per_key {St vector} `{!Services St vector} : Prop :=
  forall s batch s' results,
    delete_documents s batch = (s', Ok results) -> length results = length batch.

(** The steps of the pipeline in the order [process] takes them. *)
Definition phase_rank (p : phase) : nat :=
  match p with
  | Download => 0
  | Embed => 1
  | Removal => 2
  | Upsert => 3
  end.

(** What holds of the result of every run: it is a success exactly when it
    carries no error message; a success has created chunks; and with a
    store that reports one result per document, no more chunks are indexed
    than created, all of them in a success. *)
Definition result_consistent {St vector} `{!Services St vector}
    (res : ProcessingResult) : Prop :=
  (pr_success res = true <-> pr_error_message res = None)
  /\ (pr_success res = true -> 0 < pr_chunks_created res)
  /\ (SearchIndexer.one_result_per_document (St:=St) (vector:=vector) ->
      pr_chunks_indexed res <= pr_chunks_created res
      /\ (pr_success res = true -> pr_chunks_indexed res = pr_chunks_created res)).

(** ** Further functions of the processor *)

(** [EmbeddingService.embed_text] returns [embeddings[0] if embeddings else []]:
    the first entry, or an empty list. *)
Inductive single_embedding (vector : Type) : Type :=
| Entry (e : option vector)
| NoEntry.
Arguments Entry {vector} e.
Arguments NoEntry {vector}.

Definition embed_text {St vector} `{!Services St vector}
    (self : EmbeddingService.t) (text : str) : M St vector (single_embedding vector) :=
  let* embeddings := EmbeddingService.embed_texts self [text] in
  ret (match embeddings with
       | e :: _ => Entry e
       | [] => NoEntry
       end).

(** [split_text_to_chunks]: a splitter is built from the sizes given and
    the settings, then splits the text. *)
Definition split_text_to_chunks {vector} (settings_chunk_size settings_chunk_overlap : nat)
    (text path name : str) (chunk_size chunk_overlap : option nat)
  : result (list (Chunk vector)) :=
  match TextSplitter.init settings_chunk_size settings_chunk_overlap
          chunk_size chunk_overlap None with
  | Ok splitter => Ok (TextSplitter.split splitter text path name)
  | Raise e => Raise e
  end.

(** The settings the processor reads ([config.py]). *)
Record Settings : Type := mkSettings {
  storage_connection_string : str;
  search_endpoint : str;
  search_api_key : str;
  openai_endpoint : str;
  openai_api_key : str;
  settings_chunk_size : nat;
  settings_chunk_overlap : nat;
  embedding_batch_size : Z;
}.

(** [Settings.validate_required]: the names of the required settings that
    are empty. *)
Definition validate_required (s : Settings) : list str :=
  (if truthy (storage_connection_string s) then [] else [lit "STORAGE_CONNECTION_STRING"])
  ++ (if truthy (search_endpoint s) then [] else [lit "SEARCH_ENDPOINT"])
  ++ (if truthy (search_api_key s) then [] else [lit "SEARCH_API_KEY"])
  ++ (if truthy (openai_endpoint s) then [] else [lit "OPENAI_ENDPOINT"])
  ++ (if truthy (openai_api_key s) then [] else [lit "OPENAI_API_KEY"]).

(** [get_processor]: the processor of the module, built on the first call.
    The global [_processor] is threaded; [RuntimeError] is an [OtherError].
    [DocumentProcessor()] builds its splitter and its embedding service from
    the settings, and the splitter may refuse them. *)
Definition get_processor (settings : Settings) (_processor : option DocumentProcessor.t)
  : option DocumentProcessor.t * result DocumentProcessor.t :=
  match _processor with
  | Some p => (Some p, Ok p)
  | None =>
      let missing := validate_required settings in
      if truthy missing then
        (None, Raise (OtherError (lit "Missing required configuration: "
                                    ++ join (lit ", ") missing)))
      else
        match TextSplitter.init (settings_chunk_size settings)
                (settings_chunk_overlap settings) None None None with
        | Ok splitter =>
            let p := DocumentProcessor.mk splitter
                       (EmbeddingService.init (embedding_batch_size settings) None) in
            (Some p, Ok p)
        | Raise e => (None, Raise e)
        end
  end.

(** ** Blob paths ([storage/blob_service.py]) *)

(** [s.lstrip(c)] and [s.strip(c)] for one character [c]. *)
Fixpoint lstrip_char (c : ascii) (s : str) : str :=
  match s with
  | x :: s' => if Ascii.eqb x c then lstrip_char c s' else s
  | [] => []
  end.

Definition strip_char (c : ascii) (s : str) : str :=
  rev (lstrip_char c (rev (lstrip_char c s))).

(** [s.split(c, 1)] for one character [c]: the text before the first [c]
    and the text after it, or the text alone when [c] does not occur. *)
Fixpoint split_once (c : ascii) (s : str) : list str :=
  match s with
  | [] => [[]]
  | x :: s' =>
      if Ascii.eqb x c then [[]; s']
      else
        match split_once c s' with
        | p :: ps => (x :: p) :: ps
        | [] => [[x]]
        end
  end.

(** The storage SDK. [BlobClient.from_blob_url] (given the URL and the
    credential) and [BlobServiceClient.from_connection_string] build a
    client or raise: a URL or a connection string that the SDK cannot parse
    is a [ValueError]. A service client gives the client of a container,
    and that the client of a blob in it. *)
Class BlobSdk (service_client container_client blob_client : Type) : Type := {
  from_blob_url : str -> str -> result blob_client;
  from_connection_string : str -> result service_client;
  get_container_client : service_client -> str -> result container_client;
  get_blob_client : container_client -> str -> result blob_client;
}.

Module BlobService.
Section Blob.
Context {service_client container_client blob_client : Type}
  `{!BlobSdk service_client container_client blob_client}.

Record t : Type := mk {
  connection_string : str;
  _client : option service_client;
}.

(** The property [client]: the service client, built from the connection
    string on first use and kept in [_client]. *)
Definition client (self : t) : t * result service_client :=
  match _client self with
  | Some service => (self, Ok service)
  | None =>
      match from_connection_string (connection_string self) with
      | Ok service => (mk (connection_string self) (Some service), Ok service)
      | Raise e => (self, Raise e)
      end
  end.

(** [_get_blob_client]. The path is parsed before [self.client] is read. *)
Definition _get_blob_client (self : t) (blob_url : str) : t * result blob_client :=
  if startswith (lit "https://") blob_url then
    (self, from_blob_url blob_url (connection_string self))
  else
    let parts := split_once "/"%char (strip_char "/"%char blob_url) in
    match parts with
    | [container_name; blob_name] =>
        let '(self', service) := client self in
        (self',
         match service with
         | Ok service =>
             match get_container_client service container_name with
             | Ok container_client => get_blob_client container_client blob_name
             | Raise e => Raise e
             end
         | Raise e => Raise e
         end)
    | _ => (self,
            Raise (ValueError (lit "Invalid blob path: " ++ blob_url
                                 ++ lit ". Expected format: container/blob_name or full URL")))
    end.

End Blob.
End BlobService.

(** A double of the storage SDK: a blob client records what it was made
    for, its URL or its container and its name in it; a service client is
    its connection string, and a blank connection string is refused. *)
Inductive blob_ref : Type :=
| FromUrl (blob_url : str)
| InContainer (container_name blob_name : str).

Definition fake_sdk : BlobSdk str str blob_ref := {|
  from_blob_url := fun blob_url credential => Ok (FromUrl blob_url);
  from_connection_string :=
    fun conn_str =>
      if truthy (strip conn_str) then Ok conn_str
      else Raise (ValueError (lit "Connection string is either blank or malformed."));
  get_container_client := fun service container_name => Ok container_name;
  get_blob_client :=
    fun container_client blob_name => Ok (InContainer container_client blob_name);
|}.

(** * Properties *)

(** ** Chunk identity *)

Section ChunkIdentity.

Lemma str_of_int_inj (k1 k2 : Z) : str_of_int k1 = str_of_int k2 -> k1 = k2.
Proof.
  unfold str_of_int. intros H.
  apply (f_equal string_of_list_ascii) in H.
  rewrite !string_of_list_ascii_of_string in H.
  apply (f_equal NilZero.int_of_string) in H.
  assert (Hnn : forall k, Z.to_int k <> Pos Nil /\ Z.to_int k <> Neg Nil).
  { intros [|p|p]; simpl; split; try discriminate;
      intros E; injection E; apply DecimalPos.Unsigned.to_uint_nonnil. }
  rewrite !NilZero.isi in H by apply Hnn.
  injection H as H.
  rewrite <- (DecimalZ.of_to k1), <- (DecimalZ.of_to k2). now rewrite H.
Qed.

Lemma replace_char_length (a b : ascii) (s : str) :
  length (replace_char a b s) = length s.
Proof. unfold replace_char. apply length_map. Qed.

(** C8. The key is a function of [(source_path, chunk_id)] alone, and for a
    fixed source two keys are equal exactly when the chunk indices are:
    equal inputs give the equal key, distinct indices give distinct keys. *)
Theorem document_id_of_eq_iff (p : str) (k1 k2 : Z) :
  document_id_of p k1 = document_id_of p k2 <-> k1 = k2.
Proof.
  split.
  - unfold document_id_of. intros H.
    apply app_inv_head in H. apply app_inv_head in H.
    now apply str_of_int_inj.
  - intros ->. reflexivity.
Qed.

(** The same on chunks: two chunks of one source have the same key exactly
    when they have the same index. *)
Lemma document_id_same_source {vector} (c1 c2 : Chunk vector) :
  source_path c1 = source_path c2 ->
  (document_id c1 = document_id c2 <-> chunk_id c1 = chunk_id c2).
Proof.
  unfold document_id. intros ->. apply document_id_of_eq_iff.
Qed.

Lemma replace_char_app (a b : ascii) (s1 s2 : str) :
  replace_char a b (s1 ++ s2) = replace_char a b s1 ++ replace_char a b s2.
Proof. unfold replace_char. apply map_app. Qed.

(** C10. Sanitising maps both path separators to an underscore, so two
    source paths that differ only in having [/] or [\] where the other has
    [_] are distinct sources with one key for every chunk index. *)
Theorem document_id_of_not_injective (pre post : str) (k : Z) :
  (pre ++ lit "/" ++ post <> pre ++ lit "_" ++ post
   /\ document_id_of (pre ++ lit "/" ++ post) k
      = document_id_of (pre ++ lit "_" ++ post) k)
  /\ (pre ++ lit "\" ++ post <> pre ++ lit "_" ++ post
      /\ document_id_of (pre ++ lit "\" ++ post) k
         = document_id_of (pre ++ lit "_" ++ post) k).
Proof.
  split; (split; [intros H; apply app_inv_head in H; discriminate |]).
  - unfold document_id_of. now rewrite !replace_char_app.
  - unfold document_id_of. now rewrite !replace_char_app.
Qed.

Example document_id_docs_a_pdf :
  document_id_of (lit "docs/a.pdf") 0 = lit "docs_a.pdf#chunk_0"
  /\ document_id_of (lit "docs_a.pdf") 0 = lit "docs_a.pdf#chunk_0".
Proof. split; reflexivity. Qed.

End ChunkIdentity.

(** ** The splitter: numbering of the chunks *)

Section SplitterNumbering.
Context {vector : Type}.

Lemma blank_run_merged :
  map length
    (TextSplitter._merge_chunks blank_run_splitter
       (TextSplitter._split_text blank_run_splitter
          (TextSplitter.separators blank_run_splitter) (strip blank_run_text)))
  = [100; 100; 46]
  /\ map (fun m => truthy (strip m))
       (TextSplitter._merge_chunks blank_run_splitter
          (TextSplitter._split_text blank_run_splitter
             (TextSplitter.separators blank_run_splitter) (strip blank_run_text)))
     = [true; false; true].
Proof. split; vm_compute; reflexivity. Qed.

(** C1. On [blank_run_text] the second merged chunk is all blanks and is
    dropped, but the chunks keep the positions they had before the drop: the
    two chunks returned carry the indices 0 and 2. *)
Theorem split_indices_not_contiguous :
  map chunk_id
    (TextSplitter.split (vector:=vector) blank_run_splitter blank_run_text
       (lit "/test/doc.pdf") (lit "doc.pdf")) = [0%Z; 2%Z]
  /\ ~ contiguous_indices
       (TextSplitter.split (vector:=vector) blank_run_splitter blank_run_text
          (lit "/test/doc.pdf") (lit "doc.pdf")).
Proof.
  assert (E : map chunk_id
    (TextSplitter.split (vector:=vector) blank_run_splitter blank_run_text
       (lit "/test/doc.pdf") (lit "doc.pdf")) = [0%Z; 2%Z]).
  { vm_compute. reflexivity. }
  split; [exact E |].
  unfold contiguous_indices. rewrite E.
  rewrite <- (length_map chunk_id), E. simpl. discriminate.
Qed.

(** C2. On the same input both returned chunks record [total_chunks = 3],
    the count before the blank chunk was dropped, while two chunks are
    returned. *)
Theorem split_total_chunks_not_final :
  map total_chunks
    (TextSplitter.split (vector:=vector) blank_run_splitter blank_run_text
       (lit "/test/doc.pdf") (lit "doc.pdf")) = [Some 3%Z; Some 3%Z]
  /\ ~ total_chunks_final
       (TextSplitter.split (vector:=vector) blank_run_splitter blank_run_text
          (lit "/test/doc.pdf") (lit "doc.pdf")).
Proof.
  assert (E : map total_chunks
    (TextSplitter.split (vector:=vector) blank_run_splitter blank_run_text
       (lit "/test/doc.pdf") (lit "doc.pdf")) = [Some 3%Z; Some 3%Z]).
  { vm_compute. reflexivity. }
  split; [exact E |].
  unfold total_chunks_final. intros H.
  rewrite <- (length_map total_chunks), E in H.
  apply (proj2 (List.Forall_map total_chunks (fun o => o = Some 2%Z) _)) in H.
  rewrite E in H. inversion H. discriminate.
Qed.

(** Where the defect does not show: when no merged chunk is blank, nothing
    is dropped, and the numbering and the count are those of the chunks
    returned. *)
Lemma split_emits_all (source_path file_name : str) (total k : nat) (merged : list str) :
  List.Forall (fun m => truthy (strip m) = true) merged ->
  flat_map
    (fun '(i, chunk_text) =>
       if truthy (strip chunk_text) then
         [ mkChunk (vector:=vector) (Z.of_nat i) (strip chunk_text) source_path
             file_name None (Some (Z.of_nat total)) None ]
       else [])
    (imap (fun i x => (k + i, x)) merged)
  = imap
      (fun i m => mkChunk (Z.of_nat (k + i)) (strip m) source_path file_name
                    None (Some (Z.of_nat total)) None)
      merged.
Proof.
  revert k. induction merged as [|m merged IH]; intros k Hall; [reflexivity |].
  inversion Hall as [|? ? Hm Hall']; subst.
  rewrite !imap_cons. simpl. rewrite Hm. simpl. f_equal.
  rewrite (imap_ext _ (fun i x => (S k + i, x)))
    by (intros; unfold compose; f_equal; lia).
  rewrite IH by exact Hall'.
  apply imap_ext. intros i x _. unfold compose. do 2 f_equal. lia.
Qed.

Lemma numbered_chunk_ids (source_path file_name : str) (total : option Z) (k : nat)
    (merged : list str) :
  map chunk_id
    (imap
       (fun i m => mkChunk (vector:=vector) (Z.of_nat (k + i)) (strip m) source_path
                     file_name None total None)
       merged)
  = map Z.of_nat (seq k (length merged)).
Proof.
  revert k. induction merged as [|m merged IH]; intros k; [reflexivity |].
  rewrite imap_cons. simpl. rewrite Nat.add_0_r. f_equal.
  rewrite <- (IH (S k)). f_equal. apply imap_ext. intros i x _.
  unfold compose. do 2 f_equal. lia.
Qed.

(** X9. When none of the merged chunks is blank, the chunks [split] returns
    are numbered 0, 1, ... in order and each records their number as
    [total_chunks]. *)
Lemma split_numbering_without_blanks (self : TextSplitter.t)
    (text source_path file_name : str) :
  List.Forall (fun m => truthy (strip m) = true)
    (TextSplitter._merge_chunks self
       (TextSplitter._split_text self (TextSplitter.separators self) (strip text))) ->
  contiguous_indices (TextSplitter.split (vector:=vector) self text source_path file_name)
  /\ total_chunks_final (TextSplitter.split (vector:=vector) self text source_path file_name).
Proof.
  intros Hall. unfold TextSplitter.split.
  destruct (negb (truthy text) || negb (truthy (strip text))).
  { split; [reflexivity | constructor]. }
  unfold enumerate.
  rewrite (split_emits_all source_path file_name _ 0 _ Hall).
  set (merged := TextSplitter._merge_chunks self _).
  split.
  - unfold contiguous_indices. rewrite length_imap. apply numbered_chunk_ids.
  - unfold total_chunks_final. rewrite length_imap.
    apply List.Forall_forall. intros c Hc. apply list_elem_of_In in Hc.
    apply elem_of_lookup_imap in Hc as (i & m & -> & _). reflexivity.
Qed.

End SplitterNumbering.

(** ** The splitter: size of the chunks *)

(** What [__init__] accepts has its overlap below its chunk size. *)
Lemma init_valid (settings_chunk_size settings_chunk_overlap : nat)
    (chunk_size chunk_overlap : option nat) (separators : option (list str))
    (self : TextSplitter.t) :
  TextSplitter.init settings_chunk_size settings_chunk_overlap
    chunk_size chunk_overlap separators = Ok self ->
  TextSplitter.chunk_overlap self < TextSplitter.chunk_size self.
Proof.
  unfold TextSplitter.init.
  destruct (Nat.leb_spec (TextSplitter.or_default chunk_size settings_chunk_size)
              (TextSplitter.or_default chunk_overlap settings_chunk_overlap));
    [discriminate |].
  intros [= <-]. simpl. lia.
Qed.

Section SplitterSize.
Context {vector : Type}.
Variable self : TextSplitter.t.

Lemma slices_go_bounded {A} (fuel n : nat) (l : list A) :
  List.Forall (fun p => length p <= n) (slices_go fuel n l).
Proof.
  revert l. induction fuel as [|fuel IH]; intros [|x l]; simpl; constructor.
  - rewrite length_take. lia.
  - apply IH.
Qed.

Lemma split_by_size_bounded (text : str) :
  List.Forall (fun p => length p <= TextSplitter.chunk_size self)
    (TextSplitter._split_by_size self text).
Proof. apply slices_go_bounded. Qed.

(** Every atomic segment fits the chunk size, whatever the separators. *)
Lemma split_text_bounded (separators : list str) (text : str) :
  List.Forall (fun p => length p <= TextSplitter.chunk_size self)
    (TextSplitter._split_text self separators text).
Proof.
  revert text. induction separators as [|sep rest IH]; intros text; simpl.
  - apply split_by_size_bounded.
  - destruct (truthy sep); simpl; [| apply split_by_size_bounded].
    destruct (contains sep text); simpl; [| apply IH].
    apply List.Forall_forall. intros p Hp.
    apply in_flat_map in Hp as (part & _ & Hp).
    destruct (Nat.leb_spec (length part) (TextSplitter.chunk_size self)) as [Hle|Hgt].
    + destruct Hp as [<- | []]. exact Hle.
    + specialize (IH part). rewrite List.Forall_forall in IH. now apply IH.
Qed.

Lemma merge_step_bounded (segments : list str) (st : list str * str) (chunk : str) :
  In chunk segments ->
  List.Forall (merge_bounded self segments) (fst st) ->
  merge_bounded self segments (snd st) ->
  List.Forall (merge_bounded self segments) (fst (TextSplitter.merge_step self st chunk))
  /\ merge_bounded self segments (snd (TextSplitter.merge_step self st chunk)).
Proof.
  destruct st as [merged current]. simpl. intros Hin Hm Hc.
  unfold TextSplitter.merge_step.
  destruct (truthy current) eqn:Ht; simpl.
  - destruct (Nat.ltb_spec (TextSplitter.chunk_size self)
                (length current + length chunk + 1)) as [Hlt|Hge]; simpl.
    + split.
      * apply List.Forall_app. split; [exact Hm | now constructor].
      * right. exists chunk. split; [exact Hin |].
        rewrite !length_app, length_drop. simpl. lia.
    + split; [exact Hm |]. left. rewrite !length_app. simpl. lia.
  - split; [exact Hm |]. right. exists chunk. split; [exact Hin | lia].
Qed.

Lemma merge_fold_bounded (segments chunks : list str) (st : list str * str) :
  (forall c, In c chunks -> In c segments) ->
  List.Forall (merge_bounded self segments) (fst st) ->
  merge_bounded self segments (snd st) ->
  List.Forall (merge_bounded self segments)
    (fst (fold_left (TextSplitter.merge_step self) chunks st))
  /\ merge_bounded self segments
       (snd (fold_left (TextSplitter.merge_step self) chunks st)).
Proof.
  revert st. induction chunks as [|c chunks IH]; intros st Hsub Hm Hc; simpl.
  - now split.
  - destruct (merge_step_bounded segments st c) as [Hm' Hc']; auto.
    { apply Hsub. now left. }
    apply IH; auto. intros c' Hc''. apply Hsub. now right.
Qed.

Lemma merge_chunks_bounded (chunks : list str) :
  List.Forall (merge_bounded self chunks) (TextSplitter._merge_chunks self chunks).
Proof.
  unfold TextSplitter._merge_chunks.
  destruct chunks as [|c0 chunks0] eqn:E; [constructor |]. rewrite <- E.
  destruct (merge_fold_bounded chunks chunks ([], [])) as [Hm Hc].
  { auto. }
  { constructor. }
  { left. simpl. lia. }
  destruct (fold_left (TextSplitter.merge_step self) chunks ([], []))
    as [merged current]. simpl in *.
  destruct (truthy current); [| exact Hm].
  apply List.Forall_app. split; [exact Hm | now constructor].
Qed.

Lemma lstrip_length (s : str) : length (lstrip s) <= length s.
Proof.
  induction s as [|c s IH]; simpl; [lia |].
  destruct (isspace c); simpl; lia.
Qed.

Lemma strip_length (s : str) : length (strip s) <= length s.
Proof.
  unfold strip, rstrip. rewrite length_rev.
  etransitivity; [apply lstrip_length |]. rewrite length_rev.
  apply lstrip_length.
Qed.

(** The content of every chunk of [split] is a merged chunk, stripped. *)
Lemma split_content (text source_path file_name : str) (c : Chunk vector) :
  In c (TextSplitter.split self text source_path file_name) ->
  exists m,
    In m (TextSplitter._merge_chunks self
            (TextSplitter._split_text self (TextSplitter.separators self) (strip text)))
    /\ content c = strip m.
Proof.
  unfold TextSplitter.split.
  destruct (negb (truthy text) || negb (truthy (strip text))); [intros [] |].
  intros Hc. apply in_flat_map in Hc as ([i m] & Hin & Hc).
  exists m. split.
  - unfold enumerate in Hin. apply list_elem_of_In in Hin.
    apply elem_of_lookup_imap in Hin as (j & y & Heq & Hl).
    injection Heq as -> ->. apply list_elem_of_In.
    eapply list_elem_of_lookup_2. exact Hl.
  - destruct (truthy (strip m)); [| destruct Hc].
    destruct Hc as [<- | []]. reflexivity.
Qed.

(** C7. With an overlap below the chunk size, every chunk that [split]
    returns (the final one included) is no longer than the chunk size plus
    the length of one atomic segment of the text; as no segment exceeds the
    chunk size, no chunk exceeds twice the chunk size. *)
Theorem split_size_bound (text source_path file_name : str) :
  TextSplitter.chunk_overlap self < TextSplitter.chunk_size self ->
  List.Forall
    (fun c : Chunk vector =>
       size_bounded self
         (TextSplitter._split_text self (TextSplitter.separators self) (strip text))
         (content c)
       /\ length (content c) <= 2 * TextSplitter.chunk_size self)
    (TextSplitter.split self text source_path file_name).
Proof.
  intros Hvalid. apply List.Forall_forall. intros c Hc.
  apply split_content in Hc as (m & Hm & ->).
  pose proof (merge_chunks_bounded
    (TextSplitter._split_text self (TextSplitter.separators self) (strip text)))
    as Hb.
  rewrite List.Forall_forall in Hb. specialize (Hb m Hm).
  pose proof (strip_length m) as Hs.
  pose proof (split_text_bounded (TextSplitter.separators self) (strip text)) as Hseg.
  rewrite List.Forall_forall in Hseg.
  destruct Hb as [Hle | (s & Hin & Hle)].
  - split; [left |]; lia.
  - specialize (Hseg s Hin). simpl in Hseg.
    split; [right; exists s; split; [exact Hin |] |]; lia.
Qed.

End SplitterSize.

Lemma split_size_bound_witness :
  TextSplitter.chunk_overlap blank_run_splitter
  < TextSplitter.chunk_size blank_run_splitter
  /\ List.Forall
       (fun c : Chunk unit =>
          size_bounded blank_run_splitter
            (TextSplitter._split_text blank_run_splitter
               (TextSplitter.separators blank_run_splitter) (strip blank_run_text))
            (content c)
          /\ length (content c) <= 2 * TextSplitter.chunk_size blank_run_splitter)
       (TextSplitter.split blank_run_splitter blank_run_text
          (lit "/test/doc.pdf") (lit "doc.pdf")).
Proof.
  split; [simpl; lia |].
  apply (split_size_bound blank_run_splitter); simpl; lia.
Defined.

(** The overshoot is real: with [chunk_size = 10] and [chunk_overlap = 3]
    the second and third chunk of this text have 14 characters. *)
Example split_overshoot :
  map (fun c : Chunk unit => length (content c))
    (TextSplitter.split (TextSplitter.mk 10 3 TextSplitter.DEFAULT_SEPARATORS)
       (lit "aaaaaaaaaa bbbbbbbbbb cccccccccc") [] [])
  = [10; 14; 14].
Proof. vm_compute. reflexivity. Qed.

(** ** Batches *)

Section Slices.
Context {A : Type}.

Lemma slices_go_concat (fuel n : nat) (l : list A) :
  0 < n -> length l <= fuel -> concat (slices_go fuel n l) = l.
Proof.
  intros Hn. revert l. induction fuel as [|fuel IH]; intros [|x l] Hl; simpl in *;
    try reflexivity; try lia.
  destruct n as [|n]; [lia |]. simpl.
  f_equal. rewrite IH.
  - apply take_drop.
  - rewrite length_drop. lia.
Qed.

(** The slices of a list, put end to end, are the list. *)
Lemma slices_concat (n : nat) (l : list A) :
  0 < n -> concat (slices n l) = l.
Proof. intros Hn. apply slices_go_concat; [exact Hn | lia]. Qed.

End Slices.

(** ** The reconciler: the length check and the accounting of upserts *)

Section Upsert.
Context {St vector : Type} `{!Services St vector}.

Lemma count_succeeded_le (results : list IndexingResult) :
  SearchIndexer.count_succeeded results <= length results.
Proof. unfold SearchIndexer.count_succeeded. apply length_filter. Qed.

(** [_upsert_batch] always returns a pair of counts; they add up to the
    number of results the store gave, or are [(0, len(documents))] when the
    upload raised. *)
Lemma upsert_batch_counts (documents : list (SearchDocument vector))
    (w : World St vector) :
  exists w' success failed,
    SearchIndexer._upsert_batch documents w = (w', Ok (success, failed))
    /\ match upload_documents (ext w) documents with
       | (_, Ok results) => success + failed = length results
       | (_, Raise _) => success = 0 /\ failed = length documents
       end.
Proof.
  unfold SearchIndexer._upsert_batch, catch, bind, io, ret.
  destruct (upload_documents (ext w) documents) as [s' [results | e]].
  - eexists _, _, _. split; [reflexivity |].
    pose proof (count_succeeded_le results). lia.
  - eexists _, _, _. split; [reflexivity |]. now split.
Qed.

Lemma upsert_batches_counts (batches : list (list (SearchDocument vector)))
    (total_success total_failed : nat) (w : World St vector) :
  exists w' success failed,
    SearchIndexer.upsert_batches batches total_success total_failed w
    = (w', Ok (success, failed))
    /\ (SearchIndexer.one_result_per_document ->
        success + failed = total_success + total_failed + length (concat batches)).
Proof.
  revert total_success total_failed w.
  induction batches as [|batch batches IH]; intros ts tf w; simpl.
  - eexists _, _, _. split; [reflexivity |]. intros _. simpl. lia.
  - unfold bind.
    destruct (upsert_batch_counts batch w) as (w1 & s1 & f1 & E1 & H1).
    rewrite E1.
    destruct (IH (ts + s1) (tf + f1) w1) as (w2 & s2 & f2 & E2 & H2).
    eexists _, _, _. split; [exact E2 |].
    intros Hone. specialize (H2 Hone). rewrite length_app.
    destruct (upload_documents (ext w) batch) as [s' [results | e]] eqn:Eu.
    + apply Hone in Eu. lia.
    + lia.
Qed.

Lemma attach_length (chunks : list (Chunk vector)) (embeddings : list (option vector)) :
  length (SearchIndexer.attach chunks embeddings) = length chunks.
Proof.
  unfold SearchIndexer.attach.
  rewrite length_app, length_zip_with, length_drop. lia.
Qed.

(** C9. When [chunks] is empty, or no embeddings are given, or as many as
    there are chunks, [upsert_chunks] returns a pair of counts and does not
    raise; a batch whose upload raises counts as [len(batch)] failures; and
    with a store that reports one result per document the two counts add up
    to the number of chunks. *)
Theorem upsert_chunks_never_raises (chunks : list (Chunk vector))
    (embeddings : option (list (option vector))) (w : World St vector) :
  (chunks = [] \/ forall l, embeddings = Some l -> l = [] \/ length l = length chunks) ->
  (exists w' success failed,
     SearchIndexer.upsert_chunks chunks embeddings w = (w', Ok (success, failed))
     /\ (SearchIndexer.one_result_per_document ->
         success + failed = length chunks))
  /\ (forall (batch : list (SearchDocument vector)) w0 s' e,
        upload_documents (ext w0) batch = (s', Raise e) ->
        exists w1, SearchIndexer._upsert_batch batch w0 = (w1, Ok (0, length batch))).
Proof.
  intros Hcheck. split.
  - unfold SearchIndexer.upsert_chunks.
    destruct (truthy chunks) eqn:Et; simpl.
    2: { destruct chunks; [| discriminate].
         eexists _, _, _. split; reflexivity. }
    destruct Hcheck as [-> | Hcheck]; [discriminate |].
    set (given := match embeddings with Some l => l | None => [] end).
    assert (Hg : given = [] \/ length given = length chunks).
    { subst given. destruct embeddings as [l|]; [apply Hcheck; reflexivity | now left]. }
    assert (Hlen : length (if truthy given then SearchIndexer.attach chunks given
                           else chunks) = length chunks).
    { destruct (truthy given); [apply attach_length | reflexivity]. }
    assert (Hraise : truthy given && negb (length given =? length chunks) = false).
    { destruct Hg as [-> | ->]; [reflexivity |].
      rewrite Nat.eqb_refl. apply andb_false_r. }
    rewrite Hraise.
    match goal with
    | |- context [SearchIndexer.upsert_batches ?b 0 0 w] =>
        destruct (upsert_batches_counts b 0 0 w) as (w' & s & f & E & H)
    end.
    exists w', s, f. split; [exact E |].
    intros Hone. specialize (H Hone).
    rewrite slices_concat in H by (unfold SearchIndexer.BATCH_SIZE; lia).
    rewrite length_map, Hlen in H. lia.
  - intros batch w0 s' e Hu.
    destruct (upsert_batch_counts batch w0) as (w1 & s & f & E & H).
    rewrite Hu in H. destruct H as [-> ->]. now exists w1.
Qed.

(** C6, amended. Take a non-empty list of embeddings whose length differs
    from that of the chunks. With no chunks, [upsert_chunks] returns
    [(0, 0)] and raises nothing. With at least one chunk it raises
    [ValueError] with the world as it was, no call made; and step 5 of
    [process], which runs the removal first, ends in the world the removal
    left, with the removal's own error or else with that [ValueError]: the
    search and the deletes have been made by then, and no upload is. *)
Theorem upsert_chunks_rejects_mismatch (chunks : list (Chunk vector))
    (embeddings : list (option vector)) (w : World St vector) :
  embeddings <> [] ->
  length embeddings <> length chunks ->
  match chunks with
  | [] => SearchIndexer.upsert_chunks chunks (Some embeddings) w = (w, Ok (0, 0))
  | _ :: _ =>
      exists msg,
        SearchIndexer.upsert_chunks chunks (Some embeddings) w
        = (w, Raise (ValueError msg))
        /\ forall blob_url,
             DocumentProcessor.delete_and_upsert blob_url chunks embeddings w
             = match SearchIndexer.delete_by_source_path blob_url w with
               | (w1, Ok _) => (w1, Raise (ValueError msg))
               | (w1, Raise e) => (w1, Raise e)
               end
  end.
Proof.
  intros He Hlen.
  destruct chunks as [|c chunks]; [reflexivity |].
  destruct embeddings as [|v embeddings]; [congruence |].
  assert (Hraise : forall w0 : World St vector,
            SearchIndexer.upsert_chunks (c :: chunks) (Some (v :: embeddings)) w0
            = (w0, Raise (ValueError (lit "Embeddings count must match chunks count")))).
  { intros w0. unfold SearchIndexer.upsert_chunks. cbn [truthy negb andb].
    destruct (Nat.eqb_spec (length (v :: embeddings)) (length (c :: chunks))) as [E|_];
      [contradiction | reflexivity]. }
  eexists. split; [apply Hraise |].
  intros blob_url. unfold DocumentProcessor.delete_and_upsert, bind.
  destruct (SearchIndexer.delete_by_source_path blob_url w) as [w1 [deleted | e]];
    [apply Hraise | reflexivity].
Qed.

End Upsert.

Section UpsertOnTheDouble.
Local Existing Instance Fake.services.

Lemma fake_one_result_per_document :
  SearchIndexer.one_result_per_document (St:=Fake.state) (vector:=nat).
Proof.
  intros s documents s' results. simpl. unfold Fake.upload.
  destruct (Fake.upload_failures s); [| discriminate].
  intros [= _ <-]. apply length_map.
Qed.

Lemma upsert_chunks_never_raises_witness :
  (Fake.sample_chunks = []
   \/ forall l, Some [Some 19; Some 20] = Some l ->
        l = [] \/ length l = length Fake.sample_chunks)
  /\ exists w' success failed,
       SearchIndexer.upsert_chunks Fake.sample_chunks (Some [Some 19; Some 20])
         (Fake.world Fake.quiet) = (w', Ok (success, failed))
       /\ success + failed = length Fake.sample_chunks.
Proof.
  assert (H : Fake.sample_chunks = []
              \/ forall l, Some [Some 19; Some 20] = Some l ->
                   l = [] \/ length l = length Fake.sample_chunks).
  { right. intros l [= <-]. right. reflexivity. }
  split; [exact H |].
  destruct (upsert_chunks_never_raises Fake.sample_chunks (Some [Some 19; Some 20])
              (Fake.world Fake.quiet) H) as [(w' & s & f & E & Hsum) _].
  exists w', s, f. split; [exact E |].
  apply Hsum. exact fake_one_result_per_document.
Defined.

Lemma upsert_chunks_rejects_mismatch_witness :
  [Some 19] <> ([] : list (option nat))
  /\ length [Some 19] <> length Fake.sample_chunks
  /\ exists msg,
       SearchIndexer.upsert_chunks Fake.sample_chunks (Some [Some 19])
         (Fake.world Fake.quiet)
       = (Fake.world Fake.quiet, Raise (ValueError msg))
       /\ forall blob_url,
            DocumentProcessor.delete_and_upsert blob_url Fake.sample_chunks [Some 19]
              (Fake.world Fake.quiet)
            = match SearchIndexer.delete_by_source_path blob_url (Fake.world Fake.quiet) with
              | (w1, Ok _) => (w1, Raise (ValueError msg))
              | (w1, Raise e) => (w1, Raise e)
              end.
Proof.
  split; [discriminate |]. split; [simpl; lia |].
  apply (upsert_chunks_rejects_mismatch Fake.sample_chunks [Some 19]
           (Fake.world Fake.quiet)); [discriminate | simpl; lia].
Defined.

(** C6 as stated fails, in two ways. One embedding for no chunks:
    [upsert_chunks] returns [(0, 0)] and raises nothing. One embedding for
    the two chunks of a document with two stale entries, handed to step 5
    of [process]: [ValueError] is raised, but only after the index store
    has been searched and the two stale entries deleted. *)
Lemma upsert_chunks_accepts_mismatch :
  SearchIndexer.upsert_chunks [] (Some [Some 19]) (Fake.world Fake.quiet)
  = (Fake.world Fake.quiet, Ok (0, 0))
  /\ (let run :=
        DocumentProcessor.delete_and_upsert (lit "/documents/test.pdf")
          Fake.sample_chunks [Some 19]
          (Fake.world (Fake.mk [] [Fake.stale] [] [] [] [])) in
      snd run = Raise (ValueError (lit "Embeddings count must match chunks count"))
      /\ trace (fst run)
         = [ EvSearch (lit "/documents/test.pdf") Fake.stale;
             EvDeleteDocuments [lit "a.pdf#chunk_0"; lit "a.pdf#chunk_1"]
               (Ok [ mkIndexingResult (lit "a.pdf#chunk_0") true None;
                     mkIndexingResult (lit "a.pdf#chunk_1") true None ]) ])
  /\ ~ (forall (chunks : list (Chunk nat)) (embeddings : list (option nat))
          (w : World Fake.state nat),
          length embeddings <> length chunks ->
          exists msg,
            SearchIndexer.upsert_chunks chunks (Some embeddings) w
            = (w, Raise (ValueError msg)))
  /\ ~ (forall (chunks : list (Chunk nat)) (embeddings : list (option nat))
          (w : World Fake.state nat),
          length embeddings <> length chunks ->
          exists msg,
            DocumentProcessor.delete_and_upsert (lit "/documents/test.pdf")
              chunks embeddings w
            = (w, Raise (ValueError msg))).
Proof.
  split; [reflexivity |]. split; [vm_compute; split; reflexivity |]. split.
  - intros H.
    destruct (H [] [Some 19] (Fake.world Fake.quiet)) as [msg Hmsg];
      [simpl; lia | discriminate Hmsg].
  - intros H.
    destruct (H Fake.sample_chunks [Some 19]
                (Fake.world (Fake.mk [] [Fake.stale] [] [] [] []))) as [msg Hmsg];
      [simpl; lia |].
    vm_compute in Hmsg. discriminate Hmsg.
Qed.

End UpsertOnTheDouble.

(** ** The batcher: alignment of the vectors with the texts *)

Section Alignment.
Context {St vector : Type} `{!Services St vector}.
Import EmbeddingService.

Lemma setitem_in_range {A} (l : list A) (j : nat) (x : A) :
  j < length l -> setitem l (Z.of_nat j) x = Ok (<[j:=x]> l).
Proof.
  intros Hj. unfold setitem.
  destruct (Z.leb_spec 0 (Z.of_nat j)); [| lia].
  destruct (Z.ltb_spec (Z.of_nat j) (Z.of_nat (length l))); [| lia].
  simpl. now rewrite Nat2Z.id.
Qed.

(** Placing results whose indices are in range succeeds; a slot no result
    names is left as it was, and when no two results name the same slot,
    the slot a result names holds its vector. *)
Lemma place_spec (data : list (Embedding vector)) :
  forall l : list (option vector),
    (forall it, it ∈ data -> exists j, index it = Z.of_nat j /\ j < length l) ->
    exists l',
      place data l = Ok l'
      /\ length l' = length l
      /\ (forall j, (forall it, it ∈ data -> index it <> Z.of_nat j) -> l' !! j = l !! j)
      /\ (NoDup (map index data) ->
          forall it, it ∈ data ->
            l' !! Z.to_nat (index it) = Some (Some (embedding_vec it))).
Proof.
  induction data as [|a data IH]; intros l Hrange; simpl.
  - exists l. repeat split; auto. intros _ it Hin. inversion Hin.
  - destruct (Hrange a) as (j & Hj & Hlt); [left |].
    rewrite Hj, setitem_in_range by exact Hlt.
    destruct (IH (<[j:=Some (embedding_vec a)]> l)) as (l' & Hp & Hlen & Hkeep & Hset).
    { intros it Hin. rewrite length_insert. apply Hrange. now right. }
    exists l'. split; [exact Hp |]. split; [now rewrite Hlen, length_insert |]. split.
    + intros j' Hj'. rewrite Hkeep.
      * apply list_lookup_insert_ne. intros ->. apply (Hj' a); [left | exact Hj].
      * intros it Hin. apply Hj'. now right.
    + intros Hnd it Hin. apply NoDup_cons in Hnd as [Hfresh Hnd].
      apply elem_of_cons in Hin as [-> | Hin]; [| now apply Hset].
      rewrite Hj, Nat2Z.id, Hkeep.
      * now apply list_lookup_insert_eq.
      * intros it Hin Heq. apply Hfresh. rewrite <- Heq.
        apply (list_elem_of_fmap_2 index), Hin.
Qed.

Lemma in_order_elem (E : str -> vector) (input : list str) (it : Embedding vector) :
  it ∈ in_order E input <->
  exists j text, it = mkEmbedding (Z.of_nat j) (E text) /\ input !! j = Some text.
Proof. unfold in_order. apply elem_of_lookup_imap. Qed.

Lemma in_order_indices (E : str -> vector) (input : list str) :
  NoDup (map index (in_order E input)).
Proof.
  unfold in_order.
  assert (H : forall (k : nat) (l : list str),
             map index (imap (fun j text => mkEmbedding (Z.of_nat (k + j)) (E text)) l)
             = map Z.of_nat (seq k (length l))).
  { intros k l. revert k. induction l as [|x l IH]; intros k; simpl; [reflexivity |].
    rewrite Nat.add_0_r. f_equal. rewrite <- IH. f_equal.
    apply imap_ext. intros i y _. simpl. f_equal. f_equal. lia. }
  change (imap (fun j text => mkEmbedding (Z.of_nat j) (E text)) input)
    with (imap (fun j text => mkEmbedding (Z.of_nat (0 + j)) (E text)) input).
  rewrite (H 0 input).
  apply (NoDup_fmap_2 Z.of_nat), NoDup_seq.
Qed.

(** However the remote orders the results of a batch, placing them by
    index yields the vectors in the order of the texts. *)
Lemma place_reordered (E : str -> vector) (input : list str)
    (data : list (Embedding vector)) :
  data ≡ₚ in_order E input ->
  place data (replicate (length input) None) = Ok (map (fun text => Some (E text)) input).
Proof.
  intros Hperm.
  destruct (place_spec data (replicate (length input) None))
    as (l' & Hp & Hlen & _ & Hset).
  { intros it Hin. rewrite Hperm in Hin.
    apply in_order_elem in Hin as (j & text & -> & Hl).
    exists j. split; [reflexivity |].
    rewrite length_replicate. eapply lookup_lt_Some, Hl. }
  rewrite Hp. f_equal. rewrite length_replicate in Hlen.
  assert (Hnd : NoDup (map index data)).
  { change (map index data) with (index <$> data).
    rewrite Hperm. apply in_order_indices. }
  apply list_eq. intros j.
  change (map (fun text => Some (E text)) input)
    with ((fun text => Some (E text)) <$> input).
  rewrite list_lookup_fmap.
  destruct (input !! j) as [text|] eqn:Hl; simpl.
  - assert (Hin : mkEmbedding (Z.of_nat j) (E text) ∈ data).
    { rewrite Hperm. apply in_order_elem. eauto. }
    specialize (Hset Hnd _ Hin). simpl in Hset. now rewrite Nat2Z.id in Hset.
  - apply lookup_ge_None. apply lookup_ge_None in Hl. lia.
Qed.

Lemma embed_batch_reordered (E : str -> vector) (texts : list str) (w : World St vector) :
  reordering_remote E ->
  exists w',
    _embed_batch texts w = (w', Ok (map (fun text => Some (E (clean_text text))) texts)).
Proof.
  intros Hremote. unfold _embed_batch, bind, io, lift.
  destruct (Hremote (ext w) (map clean_text texts)) as (s' & data & -> & Hperm).
  eexists. f_equal. rewrite (place_reordered E _ data Hperm).
  now rewrite map_map.
Qed.

Lemma embed_batch_with_retry_reordered (E : str -> vector) (texts : list str)
    (w : World St vector) :
  reordering_remote E ->
  exists w',
    _embed_batch_with_retry texts w
    = (w', Ok (map (fun text => Some (E (clean_text text))) texts)).
Proof.
  intros Hremote. unfold _embed_batch_with_retry, MAX_RETRIES. simpl. unfold catch.
  destruct (embed_batch_reordered E texts w Hremote) as (w' & ->). now exists w'.
Qed.

Lemma embed_batches_reordered (E : str -> vector) (batches : list (list str))
    (all_embeddings : list (option vector)) (w : World St vector) :
  reordering_remote E ->
  exists w',
    embed_batches batches all_embeddings w
    = (w', Ok (all_embeddings
               ++ map (fun text => Some (E (clean_text text))) (concat batches))).
Proof.
  intros Hremote. revert all_embeddings w.
  induction batches as [|batch batches IH]; intros acc w; simpl.
  - exists w. unfold ret. now rewrite app_nil_r.
  - unfold bind.
    destruct (embed_batch_with_retry_reordered E batch w Hremote) as (w1 & ->).
    destruct (IH (acc ++ map (fun text => Some (E (clean_text text))) batch) w1)
      as (w2 & ->).
    exists w2. now rewrite map_app, app_assoc.
Qed.

(** With a batch size of at least one, [embed_texts] runs the batch loop
    over the slices of the texts. *)
Lemma embed_texts_positive (self : EmbeddingService.t) (texts : list str) :
  (0 < batch_size self)%Z ->
  embed_texts self texts
  = if negb (truthy texts) then ret []
    else embed_batches (slices (Z.to_nat (batch_size self)) texts) [].
Proof.
  intros Hb. unfold embed_texts.
  destruct (Z.eqb_spec (batch_size self) 0) as [E0 | _]; [lia |].
  destruct (Z.ltb_spec (batch_size self) 0) as [E1 | _]; [lia | reflexivity].
Qed.

(** With a negative batch size, [embed_texts] calls nothing and returns no
    entry, whatever the texts. *)
Lemma embed_texts_negative (self : EmbeddingService.t) (texts : list str) :
  (batch_size self < 0)%Z -> embed_texts self texts = ret [].
Proof.
  intros Hb. unfold embed_texts.
  destruct (negb (truthy texts)); [reflexivity |].
  destruct (Z.eqb_spec (batch_size self) 0) as [E0 | _]; [lia |].
  destruct (Z.ltb_spec (batch_size self) 0) as [_ | E1]; [reflexivity | lia].
Qed.

(** C3. With a remote that answers every call and may list the results of
    a call in any order, and a batch size of at least one, [embed_texts]
    returns as many vectors as there are texts, and the vector at position
    [i] is the embedding of the sanitised text [i]. *)
Theorem embed_texts_aligned (E : str -> vector) (self : EmbeddingService.t)
    (texts : list str) (w : World St vector) :
  reordering_remote E ->
  (0 < batch_size self)%Z ->
  exists w' vectors,
    embed_texts self texts w = (w', Ok vectors)
    /\ length vectors = length texts
    /\ forall i text, texts !! i = Some text ->
         vectors !! i = Some (Some (E (clean_text text))).
Proof.
  intros Hremote Hb.
  assert (Hres : exists w',
    embed_texts self texts w
    = (w', Ok (map (fun text => Some (E (clean_text text))) texts))).
  { rewrite (embed_texts_positive self texts Hb).
    destruct texts as [|t texts]; cbn [truthy negb].
    - now exists w.
    - destruct (embed_batches_reordered E
                  (slices (Z.to_nat (batch_size self)) (t :: texts)) [] w Hremote)
        as (w' & Hw').
      exists w'. rewrite Hw'. now rewrite slices_concat by lia. }
  destruct Hres as (w' & ->). eexists _, _. split; [reflexivity |].
  split; [apply length_map |].
  intros i text Hi.
  change (map (fun text => Some (E (clean_text text))) texts)
    with ((fun text => Some (E (clean_text text))) <$> texts).
  now rewrite list_lookup_fmap, Hi.
Qed.

End Alignment.

Lemma embed_texts_aligned_witness :
  EmbeddingService.reordering_remote (Services0:=Fake.steady) (fun text => length text)
  /\ (0 < EmbeddingService.batch_size (EmbeddingService.mk 2))%Z
  /\ exists w' vectors,
       EmbeddingService.embed_texts (Services0:=Fake.steady) (EmbeddingService.mk 2)
         [lit "a"; lit "bb"; lit ""; lit "dddd"; lit "eeeee"] (mkWorld tt [])
       = (w', Ok vectors)
       /\ length vectors = 5
       /\ forall i text,
            [lit "a"; lit "bb"; lit ""; lit "dddd"; lit "eeeee"] !! i = Some text ->
            vectors !! i = Some (Some (length (EmbeddingService.clean_text text))).
Proof.
  assert (H : EmbeddingService.reordering_remote (Services0:=Fake.steady) (fun text => length text)).
  { intros s input. exists s, (Fake.answer input). split; [reflexivity |].
    unfold Fake.answer. symmetry. apply Permutation_rev. }
  split; [exact H |]. split; [reflexivity |].
  apply (embed_texts_aligned (Services0:=Fake.steady) (fun text => length text)
           (EmbeddingService.mk 2)); [exact H | reflexivity].
Defined.

(** On the double the five results come back in the order of the texts,
    though each of the three calls was answered last to first. *)
Example embed_texts_five :
  snd (EmbeddingService.embed_texts (Services0:=Fake.services) (EmbeddingService.mk 2)
         [lit "a"; lit "bb"; lit ""; lit "dddd"; lit "eeeee"] (Fake.world Fake.quiet))
  = Ok [Some 1; Some 2; Some 1; Some 4; Some 5].
Proof. vm_compute. reflexivity. Qed.

(** ** The batcher: the retry policy *)

Section Retry.
Context {St vector : Type} `{!Services St vector}.
Import EmbeddingService.


Lemma backoff_S (k : nat) : backoff (S k) = Z.min (backoff k * 2) MAX_RETRY_DELAY.
Proof.
  unfold backoff, INITIAL_RETRY_DELAY, MAX_RETRY_DELAY.
  rewrite Nat2Z.inj_succ, Z.pow_succ_r by lia. lia.
Qed.


(** Placing the results raises nothing but [IndexError]. *)
Lemma place_raises (data : list (Embedding vector)) (l : list (option vector)) (e : exn) :
  place data l = Raise e -> e = IndexError.
Proof.
  revert l. induction data as [|a data IH]; intros l; simpl; [discriminate |].
  unfold setitem.
  repeat match goal with |- context [if ?b then _ else _] => destruct b end;
    try apply IH. now intros [= <-].
Qed.

(** One iteration of the retry loop. *)
Lemma retry_loop_S (attempts : nat) (delay : Z) (last_error : option exn)
    (texts : list str) (w : World St vector) :
  retry_loop (S attempts) delay last_error texts w
  = match _embed_batch texts w with
    | (w1, Ok v) => (w1, Ok v)
    | (w1, Raise e) =>
        if retryable e then
          retry_loop attempts (Z.min (delay * 2) MAX_RETRY_DELAY) (Some e) texts
            (mkWorld (time_sleep (ext w1) delay) (trace w1 ++ [EvSleep delay]))
        else (w1, Raise e)
    end.
Proof.
  simpl. unfold catch.
  destruct (_embed_batch texts w) as [w1 [v | e]]; [reflexivity |].
  destruct e as [| | sc | | | |]; try reflexivity.
  simpl. destruct (is_server_error sc); reflexivity.
Qed.

(** One attempt: a call, recorded with its answer; what it raises is what
    the call raised, or [IndexError] from placing the results. *)
Lemma embed_batch_attempt (texts : list str) (w : World St vector) :
  exists s' response,
    embeddings_create (ext w) (map clean_text texts) = (s', response)
    /\ _embed_batch texts w
       = (mkWorld s' (trace w ++ [EvEmbeddingsCreate (map clean_text texts) response]),
          match response with
          | Ok data => place data (replicate (length texts) None)
          | Raise e => Raise e
          end).
Proof.
  unfold _embed_batch, bind, io, lift.
  destruct (embeddings_create (ext w) (map clean_text texts)) as [s' [data | e]].
  - exists s', (Ok data). split; [reflexivity |]. now rewrite length_map.
  - exists s', (Raise e). split; reflexivity.
Qed.

(** The run of the retry loop with [attempts] iterations left, after [k]
    retryable failures. *)
Lemma retry_loop_policy (texts : list str) (attempts : nat) :
  forall (k : nat) (last_error : option exn) (w : World St vector),
  exists failures final,
    trace (fst (retry_loop attempts (backoff k) last_error texts w))
    = trace w ++ retry_events (map clean_text texts) k failures ++ final
    /\ List.Forall (fun e => retryable e = true) failures
    /\ ((length failures = attempts /\ final = []
         /\ snd (retry_loop attempts (backoff k) last_error texts w)
            = Raise (exhausted_error last_error failures))
        \/ (length failures < attempts
            /\ exists response,
                 final = [EvEmbeddingsCreate (map clean_text texts) response]
                 /\ match response with
                    | Ok data =>
                        snd (retry_loop attempts (backoff k) last_error texts w)
                        = place data (replicate (length texts) None)
                    | Raise e =>
                        retryable e = false
                        /\ snd (retry_loop attempts (backoff k) last_error texts w)
                           = Raise e
                    end)).
Proof.
  induction attempts as [|attempts IH]; intros k last_error w.
  - exists [], []. split; [destruct last_error; simpl; now rewrite app_nil_r |].
    split; [constructor |].
    left. split; [reflexivity |]. split; [reflexivity |].
    simpl. unfold exhausted_error. simpl. destruct last_error; reflexivity.
  - rewrite retry_loop_S.
    destruct (embed_batch_attempt texts w) as (s' & response & _ & ->).
    destruct response as [data | e].
    + exists [], [EvEmbeddingsCreate (map clean_text texts) (Ok data)].
      split.
      { destruct (place data (replicate (length texts) None)) as [v | e] eqn:Ep;
          [reflexivity |].
        apply place_raises in Ep as ->. reflexivity. }
      split; [constructor |]. right. split; [simpl; lia |].
      exists (Ok data). split; [reflexivity |]. cbv beta iota.
      destruct (place data (replicate (length texts) None)) as [v | e] eqn:Ep;
        [reflexivity |].
      apply place_raises in Ep as ->. reflexivity.
    + destruct (retryable e) eqn:Er.
      * rewrite <- backoff_S.
        match goal with
        | |- context [retry_loop attempts (backoff (S k)) (Some e) texts ?w1] =>
            destruct (IH (S k) (Some e) w1) as (failures & final & Htr & Hall & Hcase)
        end.
        exists (e :: failures), final. split.
        { rewrite Htr. simpl. now rewrite <- !app_assoc. }
        split; [now constructor |].
        destruct Hcase as [(Hlen & -> & Hr) | (Hlen & response & -> & Hr)].
        -- left. split; [simpl; lia |]. split; [reflexivity |].
           rewrite Hr. f_equal. unfold exhausted_error.
           destruct failures as [|e' failures]; [reflexivity |].
           change (last (e :: e' :: failures)) with (last (e' :: failures)).
           destruct (last (e' :: failures)) eqn:El; [reflexivity |].
           apply last_None in El. discriminate.
        -- right. split; [simpl; lia |]. exists response. split; [reflexivity |].
           exact Hr.
      * exists [], [EvEmbeddingsCreate (map clean_text texts) (Raise e)].
        split; [reflexivity |]. split; [constructor |].
        right. split; [simpl; lia |]. eexists. split; [reflexivity |].
        split; [exact Er | reflexivity].
Qed.


(** Whatever the remote answers, a run of [embed_texts] that returns has
    one entry per text: in [process] the vectors handed to [upsert_chunks]
    are always as many as the chunks. *)
Lemma place_length (data : list (Embedding vector)) (l l' : list (option vector)) :
  place data l = Ok l' -> length l' = length l.
Proof.
  revert l. induction data as [|a data IH]; intros l; simpl; [now intros [= <-] |].
  unfold setitem.
  repeat match goal with |- context [if ?b then _ else _] => destruct b end;
    try discriminate; intros Hp; apply IH in Hp; now rewrite length_insert in Hp.
Qed.

Lemma retry_loop_length (attempts : nat) (delay : Z) (last_error : option exn)
    (texts : list str) (w w' : World St vector) (v : list (option vector)) :
  retry_loop attempts delay last_error texts w = (w', Ok v) -> length v = length texts.
Proof.
  revert delay last_error w. induction attempts as [|attempts IH]; intros delay last_error w.
  - simpl. destruct last_error; discriminate.
  - rewrite retry_loop_S.
    destruct (embed_batch_attempt texts w) as (s' & response & _ & ->).
    destruct response as [data | e].
    + destruct (place data (replicate (length texts) None)) as [v0 | e] eqn:Ep.
      * intros [= _ <-]. apply place_length in Ep. now rewrite length_replicate in Ep.
      * apply place_raises in Ep as ->. discriminate.
    + destruct (retryable e); [apply IH | discriminate].
Qed.

Lemma embed_batches_length (batches : list (list str))
    (all_embeddings : list (option vector)) (w w' : World St vector)
    (v : list (option vector)) :
  embed_batches batches all_embeddings w = (w', Ok v) ->
  length v = length all_embeddings + length (concat batches).
Proof.
  revert all_embeddings w. induction batches as [|batch batches IH]; intros acc w; simpl.
  - intros [= _ <-]. lia.
  - unfold bind.
    destruct (_embed_batch_with_retry batch w) as [w1 [v1 | e]] eqn:E1; [| discriminate].
    apply retry_loop_length in E1.
    intros E2. apply IH in E2. rewrite E2, !length_app. lia.
Qed.

(** A run of [embed_texts] that returns gives one entry per text when the
    batch size is at least one, and no entry and no call when it is
    negative. *)
Lemma embed_texts_length (self : EmbeddingService.t) (texts : list str)
    (w w' : World St vector) (v : list (option vector)) :
  embed_texts self texts w = (w', Ok v) ->
  if (0 <? batch_size self)%Z then length v = length texts
  else v = [] /\ w' = w.
Proof.
  destruct (Z.ltb_spec 0 (batch_size self)) as [Hb | Hb].
  - rewrite (embed_texts_positive self texts Hb).
    destruct texts as [|t texts]; cbn [truthy negb].
    + now intros [= _ <-].
    + intros E. apply embed_batches_length in E.
      now rewrite slices_concat in E by lia.
  - unfold embed_texts. destruct (negb (truthy texts)); [now intros [= <- <-] |].
    destruct (Z.eqb_spec (batch_size self) 0) as [_ | Hne]; [discriminate |].
    destruct (Z.ltb_spec (batch_size self) 0) as [_ | Hge]; [now intros [= <- <-] |].
    lia.
Qed.

End Retry.

(** The rate limit is hit twice and the third call succeeds: two waits, of
    1 and 2 seconds, and the vector is returned. *)
Example retry_on_rate_limit :
  let run :=
    EmbeddingService._embed_batch_with_retry (Services0:=Fake.services) [lit "test"]
      (Fake.world (Fake.mk [RateLimitError; RateLimitError] [] [] [] [] [])) in
  snd run = Ok [Some 4]
  /\ trace (fst run)
     = [ EvEmbeddingsCreate [lit "test"] (Raise RateLimitError); EvSleep 1;
         EvEmbeddingsCreate [lit "test"] (Raise RateLimitError); EvSleep 2;
         EvEmbeddingsCreate [lit "test"] (Ok [mkEmbedding 0 4]) ].
Proof. vm_compute. split; reflexivity. Qed.

(** Three server errors use up the attempts: three calls, three waits, and
    the last error is raised. A malformed request is raised at once. *)
Example retry_exhausted :
  let run :=
    EmbeddingService._embed_batch_with_retry (Services0:=Fake.services) [lit "test"]
      (Fake.world (Fake.mk [APIError (Some 500%Z); APIConnectionError;
                            APIError (Some 503%Z)] [] [] [] [] [])) in
  snd run = Raise (APIError (Some 503%Z))
  /\ trace (fst run)
     = [ EvEmbeddingsCreate [lit "test"] (Raise (APIError (Some 500%Z))); EvSleep 1;
         EvEmbeddingsCreate [lit "test"] (Raise APIConnectionError); EvSleep 2;
         EvEmbeddingsCreate [lit "test"] (Raise (APIError (Some 503%Z))); EvSleep 4 ].
Proof. vm_compute. split; reflexivity. Qed.

Example no_retry_on_bad_request :
  let run :=
    EmbeddingService._embed_batch_with_retry (Services0:=Fake.services) [lit "test"]
      (Fake.world (Fake.mk [APIError (Some 400%Z)] [] [] [] [] [])) in
  snd run = Raise (APIError (Some 400%Z))
  /\ trace (fst run)
     = [ EvEmbeddingsCreate [lit "test"] (Raise (APIError (Some 400%Z))) ].
Proof. vm_compute. split; reflexivity. Qed.

(** ** The pipeline: removal before upsert *)

Section Appends.
Context {St vector : Type} `{!Services St vector}.
Local Abbreviation M := (M St vector).

Lemma appends_ret {A} (P : event vector -> Prop) (a : A) : appends P (ret a : M A).
Proof.
  intros w w' r [= <- <-]. exists []. split; [now rewrite app_nil_r | constructor].
Qed.

Lemma appends_raise {A} (P : event vector -> Prop) (e : exn) :
  appends P (raise e : M A).
Proof.
  intros w w' r [= <- <-]. exists []. split; [now rewrite app_nil_r | constructor].
Qed.

Lemma appends_lift {A} (P : event vector -> Prop) (x : result A) :
  appends P (lift x : M A).
Proof.
  intros w w' r [= <- <-]. exists []. split; [now rewrite app_nil_r | constructor].
Qed.

Lemma appends_bind {A B} (P : event vector -> Prop) (m : M A) (k : A -> M B) :
  appends P m -> (forall a, appends P (k a)) -> appends P (bind m k).
Proof.
  intros Hm Hk w w' r. unfold bind.
  destruct (m w) as [w1 [a | e]] eqn:E1.
  - intros E2. destruct (Hm _ _ _ E1) as (ev1 & T1 & H1).
    destruct (Hk a _ _ _ E2) as (ev2 & T2 & H2).
    exists (ev1 ++ ev2). split; [now rewrite T2, T1, app_assoc | now apply List.Forall_app].
  - intros [= <- <-]. exact (Hm _ _ _ E1).
Qed.

Lemma appends_catch {A} (P : event vector -> Prop) (m : M A) (h : exn -> M A) :
  appends P m -> (forall e, appends P (h e)) -> appends P (catch m h).
Proof.
  intros Hm Hh w w' r. unfold catch.
  destruct (m w) as [w1 [a | e]] eqn:E1.
  - intros [= <- <-]. exact (Hm _ _ _ E1).
  - intros E2. destruct (Hm _ _ _ E1) as (ev1 & T1 & H1).
    destruct (Hh e _ _ _ E2) as (ev2 & T2 & H2).
    exists (ev1 ++ ev2). split; [now rewrite T2, T1, app_assoc | now apply List.Forall_app].
Qed.

Lemma appends_io {A} (P : event vector -> Prop) (f : St -> St * result A)
    (ev : result A -> event vector) :
  (forall r, P (ev r)) -> appends P (io f ev).
Proof.
  intros HP w w' r. unfold io. destruct (f (ext w)) as [s' r'].
  intros [= <- <-]. exists [ev r']. split; [reflexivity |]. constructor; [apply HP | constructor].
Qed.

Lemma appends_sleep (delay : Z) :
  appends (fun ev => phase_of ev = Embed) (EmbeddingService.sleep delay).
Proof.
  intros w w' r [= <- <-]. exists [EvSleep delay]. split; [reflexivity |].
  constructor; [reflexivity | constructor].
Qed.

Lemma appends_embed_batch (texts : list str) :
  appends (fun ev => phase_of ev = Embed) (EmbeddingService._embed_batch texts).
Proof.
  unfold EmbeddingService._embed_batch.
  apply appends_bind; [apply appends_io; reflexivity |].
  intros data. apply appends_lift.
Qed.

Lemma appends_retry_loop (attempts : nat) (delay : Z) (last_error : option exn)
    (texts : list str) :
  appends (fun ev => phase_of ev = Embed)
    (EmbeddingService.retry_loop attempts delay last_error texts).
Proof.
  revert delay last_error. induction attempts as [|attempts IH]; intros delay last_error.
  - simpl. destruct last_error; apply appends_raise.
  - simpl. apply appends_catch; [apply appends_embed_batch |].
    assert (Hretry : forall e,
      appends (fun ev => phase_of ev = Embed)
        (let* u := EmbeddingService.sleep delay in
         EmbeddingService.retry_loop attempts
           (Z.min (delay * 2) EmbeddingService.MAX_RETRY_DELAY) (Some e) texts)).
    { intros e. apply appends_bind; [apply appends_sleep | intros _; apply IH]. }
    intros [| | sc | msg | | | msg]; try apply appends_raise; try apply Hretry.
    destruct (EmbeddingService.is_server_error sc); [apply Hretry | apply appends_raise].
Qed.

Lemma appends_embed_batches (batches : list (list str))
    (all_embeddings : list (option vector)) :
  appends (fun ev => phase_of ev = Embed)
    (EmbeddingService.embed_batches batches all_embeddings).
Proof.
  revert all_embeddings. induction batches as [|batch batches IH]; intros acc; simpl.
  - apply appends_ret.
  - apply appends_bind; [apply appends_retry_loop | intros v; apply IH].
Qed.

Lemma appends_embed_texts (self : EmbeddingService.t) (texts : list str) :
  appends (fun ev => phase_of ev = Embed) (EmbeddingService.embed_texts self texts).
Proof.
  unfold EmbeddingService.embed_texts.
  destruct (negb (truthy texts)); [apply appends_ret |].
  destruct (EmbeddingService.batch_size self =? 0)%Z; [apply appends_raise |].
  destruct (EmbeddingService.batch_size self <? 0)%Z;
    [apply appends_ret | apply appends_embed_batches].
Qed.

Lemma appends_upsert_batches (batches : list (list (SearchDocument vector)))
    (total_success total_failed : nat) :
  appends (fun ev => phase_of ev = Upsert)
    (SearchIndexer.upsert_batches batches total_success total_failed).
Proof.
  revert total_success total_failed.
  induction batches as [|batch batches IH]; intros ts tf; simpl.
  - apply appends_ret.
  - apply appends_bind.
    + unfold SearchIndexer._upsert_batch. apply appends_catch.
      * apply appends_bind; [apply appends_io; reflexivity |].
        intros results. apply appends_ret.
      * intros e. apply appends_ret.
    + intros [s f]. apply IH.
Qed.

Lemma appends_upsert_chunks (chunks : list (Chunk vector))
    (embeddings : option (list (option vector))) :
  appends (fun ev => phase_of ev = Upsert)
    (SearchIndexer.upsert_chunks chunks embeddings).
Proof.
  unfold SearchIndexer.upsert_chunks.
  destruct (negb (truthy chunks)); [apply appends_ret |].
  match goal with |- context [if ?b then raise _ else _] => destruct b end;
    [apply appends_raise |].
  intros w w' r. apply appends_upsert_batches.
Qed.

End Appends.

Section RemovalFirst.
Context {St vector : Type} `{!Services St vector}.


Lemma delete_batches_removal (batches : list (list str)) (total_deleted : nat) :
  removal_run (St:=St) (vector:=vector)
    (SearchIndexer.delete_batches batches total_deleted).
Proof.
  revert total_deleted. induction batches as [|batch batches IH]; intros total; simpl.
  - intros w w' r [= <- <-]. exists [].
    split; [now rewrite app_nil_r |]. split; [constructor |]. intros ev e [].
  - intros w w' r. unfold bind, io.
    destruct (delete_documents (ext w) batch) as [s' [results | e0]].
    + intros E. destruct (IH _ _ _ _ E) as (events & T & Hall & Hr). simpl in T.
      exists (EvDeleteDocuments batch (Ok results) :: events).
      split; [now rewrite T, <- app_assoc |].
      split; [now constructor |].
      intros ev e [<- | Hin] Hra; [destruct Hra | now apply (Hr ev)].
    + intros [= <- <-]. exists [EvDeleteDocuments batch (Raise e0)].
      split; [reflexivity |]. split; [now repeat constructor |].
      intros ev e [<- | []] Hra. simpl in Hra. now subst.
Qed.

(** The removal makes one search and then deletes; when the search or a
    delete raises, [delete_by_source_path] raises that error. *)
Lemma delete_by_source_path_removal (source_path : str) :
  removal_run (St:=St) (vector:=vector)
    (SearchIndexer.delete_by_source_path source_path).
Proof.
  intros w w' r. unfold SearchIndexer.delete_by_source_path, catch, bind, io.
  destruct (search_ids (ext w) source_path) as [s' [doc_ids | e0]].
  - destruct (negb (truthy doc_ids)).
    + intros [= <- <-]. exists [EvSearch source_path (Ok doc_ids)].
      split; [reflexivity |]. split; [now repeat constructor |].
      intros ev e [<- | []] [].
    + match goal with
      | |- context [SearchIndexer.delete_batches ?b ?n ?w1] =>
          destruct (SearchIndexer.delete_batches b n w1) as [w2 r2] eqn:E;
          destruct (delete_batches_removal b n _ _ _ E) as (events & T & Hall & Hr)
      end.
      simpl in T.
      assert (Hres : exists events0,
                trace w2 = trace w ++ events0
                /\ List.Forall (fun ev => phase_of ev = Removal) events0
                /\ forall ev e, In ev events0 -> removal_raised ev e -> r2 = Raise e).
      { exists (EvSearch source_path (Ok doc_ids) :: events).
        split; [now rewrite T, <- app_assoc |]. split; [now constructor |].
        intros ev e [<- | Hin] Hra; [destruct Hra | now apply (Hr ev)]. }
      destruct r2 as [n | e2]; intros [= <- <-]; exact Hres.
  - intros [= <- <-]. exists [EvSearch source_path (Raise e0)].
    split; [reflexivity |]. split; [now repeat constructor |].
    intros ev e [<- | []] Hra. simpl in Hra. now subst.
Qed.











(** Step 5 of [process] runs the removal and, when it returned, the upsert
    in the world the removal left. *)
Lemma delete_and_upsert_run (blob_url : str) (chunks : list (Chunk vector))
    (embeddings : list (option vector)) (w : World St vector) :
  DocumentProcessor.delete_and_upsert blob_url chunks embeddings w
  = match SearchIndexer.delete_by_source_path blob_url w with
    | (w1, Ok _) => SearchIndexer.upsert_chunks chunks (Some embeddings) w1
    | (w1, Raise e) => (w1, Raise e)
    end.
Proof. reflexivity. Qed.


End RemovalFirst.

(** Runs of [process] on the double; the store holds two stale entries of
    the document. *)
Section ProcessOnTheDouble.
Local Existing Instance Fake.services.

(** All goes well: the download, one embedding call, the search, the
    delete, and only then the upload. *)
Example process_order :
  map phase_of
    (trace (fst (DocumentProcessor.process Fake.processor (lit "docs/a.pdf")
                   (Fake.world (Fake.mk [] [Fake.stale] [] [] [] Fake.hello)))))
  = [Download; Embed; Removal; Removal; Upsert].
Proof. vm_compute. reflexivity. Qed.

(** The delete raises: the run ends there, nothing is uploaded, and the
    result carries the error. *)
Example process_delete_raises :
  let run :=
    DocumentProcessor.process Fake.processor (lit "docs/a.pdf")
      (Fake.world (Fake.mk [] [Fake.stale] [OtherError (lit "store down")] [] [] Fake.hello)) in
  map phase_of (trace (fst run)) = [Download; Embed; Removal; Removal]
  /\ snd run
     = Ok (DocumentProcessor.failed (lit "docs/a.pdf") (lit "a.pdf")
             (StrOf (OtherError (lit "store down")))).
Proof. vm_compute. split; reflexivity. Qed.

(** The search raises: no delete and no upload. *)
Example process_search_raises :
  let run :=
    DocumentProcessor.process Fake.processor (lit "docs/a.pdf")
      (Fake.world (Fake.mk [] [Raise (OtherError (lit "store down"))] [] [] [] Fake.hello)) in
  map phase_of (trace (fst run)) = [Download; Embed; Removal]
  /\ snd run
     = Ok (DocumentProcessor.failed (lit "docs/a.pdf") (lit "a.pdf")
             (StrOf (OtherError (lit "store down")))).
Proof. vm_compute. split; reflexivity. Qed.

End ProcessOnTheDouble.

(** * Further properties of the code *)

(** ** Slices *)

Section SlicesPieces.
Context {A : Type}.

Lemma slices_go_pieces (fuel n : nat) (l : list A) :
  0 < n -> length l <= fuel ->
  forall i p, slices_go fuel n l !! i = Some p ->
    p <> [] /\ length p <= n
    /\ (S i < length (slices_go fuel n l) -> length p = n).
Proof.
  intros Hn. revert l. induction fuel as [|fuel IH]; intros [|x l] Hl i p; simpl in *;
    try discriminate; try lia.
  destruct i as [|i]; simpl.
  - intros [= <-]. destruct n as [|n]; [lia |]. simpl.
    split; [discriminate |]. split; [rewrite length_take; lia |].
    intros Hmore. rewrite length_take.
    destruct (drop n l) as [|y l'] eqn:Ed.
    + destruct fuel; simpl in Hmore; lia.
    + assert (length (drop n l) > 0) by (rewrite Ed; simpl; lia).
      rewrite length_drop in *. lia.
  - intros Hp. destruct (IH (drop n (x :: l))) with (i := i) (p := p) as (H1 & H2 & H3).
    + rewrite length_drop. simpl. lia.
    + exact Hp.
    + split; [exact H1 |]. split; [exact H2 |]. intros Hmore. apply H3. lia.
Qed.

(** The slices of a list are non-empty, no longer than the step, and all
    but the last as long as the step. *)
Lemma slices_pieces (n : nat) (l : list A) (i : nat) (p : list A) :
  0 < n -> slices n l !! i = Some p ->
  p <> [] /\ length p <= n /\ (S i < length (slices n l) -> length p = n).
Proof. intros Hn. apply slices_go_pieces; [exact Hn | lia]. Qed.

End SlicesPieces.

(** ** The splitter: segments, merging and chunks *)

Section SplitterMore.
Context {vector : Type}.
Variable self : TextSplitter.t.

(** X1. Whatever the separators and the text, no atomic segment that
    [_split_text] returns is longer than the chunk size. *)
Theorem split_text_segments_fit (separators : list str) (text : str) :
  List.Forall (fun p => length p <= TextSplitter.chunk_size self)
    (TextSplitter._split_text self separators text).
Proof. apply split_text_bounded. Qed.

(** X2. With a positive chunk size, [_split_by_size] cuts the text into
    pieces that put end to end are the text; no piece is empty, and every
    piece but the last has exactly [chunk_size] characters. *)
Theorem split_by_size_partition (text : str) :
  0 < TextSplitter.chunk_size self ->
  concat (TextSplitter._split_by_size self text) = text
  /\ forall i p, TextSplitter._split_by_size self text !! i = Some p ->
       p <> [] /\ length p <= TextSplitter.chunk_size self
       /\ (S i < length (TextSplitter._split_by_size self text) ->
           length p = TextSplitter.chunk_size self).
Proof.
  intros Hcs. split.
  - apply slices_concat, Hcs.
  - intros i p. apply slices_pieces, Hcs.
Qed.

(** The loop of [_merge_chunks] never flushes an empty buffer, and flushes
    at most once per segment. *)
Lemma merge_fold_count (chunks : list str) (st : list str * str) (n : nat) :
  List.Forall (fun m => m <> []) (fst st) ->
  length (fst st) + (if truthy (snd st) then 1 else 0) <= n ->
  List.Forall (fun m => m <> [])
    (fst (fold_left (TextSplitter.merge_step self) chunks st))
  /\ length (fst (fold_left (TextSplitter.merge_step self) chunks st))
     + (if truthy (snd (fold_left (TextSplitter.merge_step self) chunks st))
        then 1 else 0)
     <= n + length chunks.
Proof.
  revert st n. induction chunks as [|c chunks IH]; intros [merged current] n Hne Hn.
  - simpl in *. split; [exact Hne | lia].
  - simpl in Hne, Hn. cbn [fold_left].
    destruct (IH (TextSplitter.merge_step self (merged, current) c) (S n)) as [H1 H2].
    + unfold TextSplitter.merge_step.
      destruct current as [|a current]; simpl; [exact Hne |].
      destruct (TextSplitter.chunk_size self <? _); simpl; [| exact Hne].
      apply List.Forall_app. split; [exact Hne |]. now repeat constructor.
    + unfold TextSplitter.merge_step.
      destruct current as [|a current]; simpl in *.
      * destruct (truthy c); lia.
      * destruct (TextSplitter.chunk_size self <? _); simpl.
        -- rewrite length_app. simpl.
           destruct (drop _ (a :: current) ++ SP :: c) eqn:E; simpl; lia.
        -- lia.
    + split; [exact H1 |].
      change (length (c :: chunks)) with (S (length chunks)).
      rewrite Nat.add_succ_r. exact H2.
Qed.

(** X3. [_merge_chunks] never returns an empty string, and never returns
    more chunks than it was given segments. *)
Theorem merge_chunks_nonempty (chunks : list str) :
  List.Forall (fun m => m <> []) (TextSplitter._merge_chunks self chunks)
  /\ length (TextSplitter._merge_chunks self chunks) <= length chunks.
Proof.
  unfold TextSplitter._merge_chunks.
  destruct chunks as [|c0 chunks0] eqn:E; [split; [constructor | reflexivity] |].
  rewrite <- E.
  destruct (merge_fold_count chunks ([], []) 0) as [H1 H2]; [constructor | simpl; lia |].
  destruct (fold_left (TextSplitter.merge_step self) chunks ([], []))
    as [merged current]. simpl in *.
  destruct current as [|a current]; simpl in *.
  - split; [exact H1 | lia].
  - split.
    + apply List.Forall_app. split; [exact H1 |]. now repeat constructor.
    + rewrite length_app. simpl. lia.
Qed.

End SplitterMore.

Section MergeOverlap.
Variable self : TextSplitter.t.

Lemma overlap_tail_length (p : str) :
  length (overlap_tail self p) = Nat.min (TextSplitter.chunk_overlap self) (length p).
Proof. unfold overlap_tail. rewrite length_drop. lia. Qed.

Lemma overlapping_snoc (l : list str) (x : str) :
  overlapping self l ->
  (forall p, last l = Some p -> exists rest, x = overlap_tail self p ++ [SP] ++ rest) ->
  overlapping self (l ++ [x]).
Proof.
  intros Hl Hx i p q Hp Hq. unfold str in *.
  destruct (decide (S i < length l)) as [Hlt | Hge].
  - rewrite lookup_app_l in Hp by lia. rewrite lookup_app_l in Hq by lia.
    exact (Hl i p q Hp Hq).
  - assert (Hi : S i = length l).
    { apply lookup_lt_Some in Hq. rewrite length_app in Hq. simpl in Hq. lia. }
    rewrite lookup_app_l in Hp by lia.
    rewrite lookup_app_r in Hq by lia.
    replace (S i - length l) with 0 in Hq by lia. injection Hq as <-.
    apply Hx. rewrite last_lookup. rewrite <- Hi. exact Hp.
Qed.

(** What the loop of [_merge_chunks] keeps true: the flushed chunks
    overlap, and the buffer begins with the overlap of the last flushed
    chunk. *)
Lemma merge_fold_overlap (chunks : list str) (st : list str * str) :
  overlapping self (fst st) ->
  (forall p, last (fst st) = Some p ->
     exists rest, snd st = overlap_tail self p ++ [SP] ++ rest) ->
  overlapping self (fst (fold_left (TextSplitter.merge_step self) chunks st))
  /\ (forall p, last (fst (fold_left (TextSplitter.merge_step self) chunks st)) = Some p ->
        exists rest,
          snd (fold_left (TextSplitter.merge_step self) chunks st)
          = overlap_tail self p ++ [SP] ++ rest).
Proof.
  revert st. induction chunks as [|c chunks IH]; intros [merged current] Hm Hc.
  - split; assumption.
  - cbn [fold_left]. apply IH; simpl in Hm, Hc; unfold TextSplitter.merge_step.
    + destruct current as [|a current]; simpl; [exact Hm |].
      destruct (TextSplitter.chunk_size self <? _); simpl; [| exact Hm].
      now apply overlapping_snoc.
    + destruct current as [|a current]; simpl.
      * intros p Hp. destruct (Hc p Hp) as [rest Hrest].
        destruct (overlap_tail self p); discriminate.
      * destruct (TextSplitter.chunk_size self <? _); simpl.
        -- intros p Hp. rewrite last_snoc in Hp. injection Hp as <-.
           exists c. reflexivity.
        -- intros p Hp. destruct (Hc p Hp) as [rest Hrest].
           exists (rest ++ SP :: c).
           change (a :: current ++ SP :: c) with ((a :: current) ++ SP :: c).
           rewrite Hrest. now rewrite <- !app_assoc.
Qed.

(** X4. In what [_merge_chunks] returns, every chunk but the first begins
    with the last [chunk_overlap] characters of the chunk before it (all of
    it when it is shorter), followed by a space. *)
Theorem merge_chunks_overlap (chunks : list str) (i : nat) (p q : str) :
  TextSplitter._merge_chunks self chunks !! i = Some p ->
  TextSplitter._merge_chunks self chunks !! S i = Some q ->
  exists rest,
    q = drop (length p - TextSplitter.chunk_overlap self) p ++ [SP] ++ rest.
Proof.
  assert (H : overlapping self (TextSplitter._merge_chunks self chunks)).
  { unfold TextSplitter._merge_chunks.
    destruct chunks as [|c0 chunks0] eqn:E; [intros j ? ? Hj; discriminate Hj |].
    rewrite <- E.
    destruct (merge_fold_overlap chunks ([], [])) as [H1 H2].
    { intros j ? ? Hj. discriminate Hj. }
    { intros ? Hp. discriminate Hp. }
    destruct (fold_left (TextSplitter.merge_step self) chunks ([], []))
      as [merged current]. simpl in *.
    destruct (truthy current); [now apply overlapping_snoc | exact H1]. }
  intros Hp Hq. exact (H i p q Hp Hq).
Qed.

End MergeOverlap.

Lemma merge_chunks_overlap_witness :
  TextSplitter._merge_chunks (TextSplitter.mk 10 3 TextSplitter.DEFAULT_SEPARATORS)
    [lit "aaaaaaaaaa"; lit "bbbbbbbbbb"] !! 0 = Some (lit "aaaaaaaaaa")
  /\ TextSplitter._merge_chunks (TextSplitter.mk 10 3 TextSplitter.DEFAULT_SEPARATORS)
       [lit "aaaaaaaaaa"; lit "bbbbbbbbbb"] !! 1 = Some (lit "aaa bbbbbbbbbb")
  /\ exists rest,
       lit "aaa bbbbbbbbbb"
       = drop (length (lit "aaaaaaaaaa") - 3) (lit "aaaaaaaaaa") ++ [SP] ++ rest.
Proof.
  split; [reflexivity |]. split; [reflexivity |].
  apply (merge_chunks_overlap (TextSplitter.mk 10 3 TextSplitter.DEFAULT_SEPARATORS)
           [lit "aaaaaaaaaa"; lit "bbbbbbbbbb"] 0); reflexivity.
Defined.

Section MergeContent.
Variable self : TextSplitter.t.

Lemma join_snoc (sep : str) (l : list str) (x : str) :
  l <> [] -> join sep (l ++ [x]) = join sep l ++ sep ++ x.
Proof.
  induction l as [|a l IH]; [congruence |]. intros _.
  destruct l as [|b l]; [reflexivity |].
  change (join sep ((a :: b :: l) ++ [x])) with (a ++ sep ++ join sep ((b :: l) ++ [x])).
  rewrite IH by discriminate.
  change (join sep (a :: b :: l)) with (a ++ sep ++ join sep (b :: l)).
  now rewrite <- !app_assoc.
Qed.

Lemma join_snoc_app (sep : str) (l : list str) (x y : str) :
  join sep (l ++ [x ++ y]) = join sep (l ++ [x]) ++ y.
Proof.
  destruct l as [|a l]; [reflexivity |].
  rewrite !join_snoc by discriminate. now rewrite <- !app_assoc.
Qed.

Lemma fresh_after_snoc (prev : str) (l : list str) (x : str) :
  fresh_after self prev (l ++ [x])
  = fresh_after self prev l ++ [without_overlap self (default prev (last l)) x].
Proof.
  revert prev. induction l as [|m l IH]; intros prev; [reflexivity |].
  assert (E : default prev (last (m :: l)) = default m (last l)).
  { destruct l as [|m' l]; [reflexivity |].
    change (last (m :: m' :: l)) with (last (m' :: l)).
    destruct (last (m' :: l)) eqn:El; [reflexivity |].
    apply last_None in El. discriminate. }
  rewrite E. cbn [app fresh_after]. now rewrite IH.
Qed.

Lemma fresh_snoc (l : list str) (x : str) :
  fresh self (l ++ [x])
  = match last l with
    | Some p => fresh self l ++ [without_overlap self p x]
    | None => [x]
    end.
Proof.
  destruct l as [|m l]; [reflexivity |].
  simpl. rewrite fresh_after_snoc.
  destruct l as [|m' l]; [reflexivity |].
  change (last (m :: m' :: l)) with (last (m' :: l)).
  destruct (last (m' :: l)) eqn:El; [reflexivity |].
  apply last_None in El. discriminate.
Qed.

Lemma drop_leading_empty_snoc (l : list str) (c : str) :
  drop_leading_empty (l ++ [c])
  = match drop_leading_empty l with
    | [] => match c with [] => [] | _ :: _ => [c] end
    | _ :: _ => drop_leading_empty l ++ [c]
    end.
Proof.
  induction l as [|a l IH]; simpl.
  - now destruct c.
  - destruct a; [exact IH | reflexivity].
Qed.

Lemma without_overlap_seed (p c : str) :
  without_overlap self p (overlap_tail self p ++ [SP] ++ c) = c.
Proof.
  unfold without_overlap.
  replace (overlap_tail self p ++ [SP] ++ c) with ((overlap_tail self p ++ [SP]) ++ c)
    by now rewrite <- app_assoc.
  apply drop_app_length'. rewrite length_app. reflexivity.
Qed.

Lemma without_overlap_app (p rest c : str) :
  without_overlap self p ((overlap_tail self p ++ [SP] ++ rest) ++ c)
  = without_overlap self p (overlap_tail self p ++ [SP] ++ rest) ++ c.
Proof.
  rewrite <- !app_assoc.
  change ([SP] ++ rest ++ c) with ([SP] ++ (rest ++ c)).
  now rewrite !without_overlap_seed.
Qed.

Lemma fresh_nonempty (l : list str) : l <> [] -> fresh self l <> [].
Proof. destruct l; [congruence | discriminate]. Qed.

Lemma merge_step_content (st : list str * str) (c : str) (done : list str) :
  merge_content_inv self st done ->
  merge_content_inv self (TextSplitter.merge_step self st c) (done ++ [c]).
Proof.
  destruct st as [merged current]. intros [Hov Hcase]. simpl in Hov, Hcase.
  unfold merge_content_inv, TextSplitter.merge_step. rewrite drop_leading_empty_snoc.
  destruct Hcase as [(-> & -> & ->) | (Hcur & Hdone & Hjoin)].
  - simpl. split; [intros p Hp; discriminate Hp |].
    destruct c as [|a c]; [left; now repeat split |].
    right. split; [discriminate |]. split; [discriminate | reflexivity].
  - assert (Ht : truthy current = true) by (destruct current; [congruence | reflexivity]).
    rewrite Ht. cbn [andb].
    destruct (drop_leading_empty done) as [|d0 ds] eqn:Ed; [congruence |].
    rewrite <- Ed in *. clear Ed d0 ds.
    destruct (TextSplitter.chunk_size self <? _); cbn [fst snd].
    + split.
      * intros p Hp. rewrite last_snoc in Hp. injection Hp as <-. now exists c.
      * right. split; [destruct (drop _ current); discriminate |].
        split; [destruct (drop_leading_empty done); [congruence | discriminate] |].
        rewrite fresh_snoc, last_snoc.
        change (drop (Nat.max 0 (length current - TextSplitter.chunk_overlap self))
                  current ++ [SP] ++ c)
          with (overlap_tail self current ++ [SP] ++ c).
        rewrite without_overlap_seed.
        rewrite join_snoc by (apply fresh_nonempty; destruct merged; discriminate).
        rewrite Hjoin. now rewrite join_snoc by exact Hdone.
    + split.
      * intros p Hp. destruct (Hov p Hp) as [rest ->].
        exists (rest ++ [SP] ++ c). now rewrite <- !app_assoc.
      * right. split; [destruct current; [congruence | discriminate] |].
        split; [destruct (drop_leading_empty done); [congruence | discriminate] |].
        rewrite (join_snoc _ (drop_leading_empty done)) by exact Hdone.
        rewrite <- Hjoin. rewrite !fresh_snoc.
        destruct (last merged) as [p|] eqn:El.
        -- destruct (Hov p eq_refl) as [rest ->].
           change (SP :: rest) with ([SP] ++ rest).
           rewrite without_overlap_app. apply join_snoc_app.
        -- reflexivity.
Qed.

Lemma merge_fold_content (chunks : list str) (st : list str * str) (done : list str) :
  merge_content_inv self st done ->
  merge_content_inv self (fold_left (TextSplitter.merge_step self) chunks st)
    (done ++ chunks).
Proof.
  revert st done. induction chunks as [|c chunks IH]; intros st done Hinv.
  - now rewrite app_nil_r.
  - cbn [fold_left]. replace (done ++ c :: chunks) with ((done ++ [c]) ++ chunks)
      by now rewrite <- app_assoc.
    apply IH, merge_step_content, Hinv.
Qed.

(** X5. Nothing is lost in merging: the chunks [_merge_chunks] returns,
    each but the first taken without the overlap it repeats, and joined by
    single spaces, are the segments from the first non-empty one on, joined
    by single spaces. *)
Theorem merge_chunks_content (chunks : list str) :
  join [SP] (fresh self (TextSplitter._merge_chunks self chunks))
  = join [SP] (drop_leading_empty chunks).
Proof.
  unfold TextSplitter._merge_chunks.
  destruct chunks as [|c0 chunks0] eqn:E; [reflexivity |]. rewrite <- E.
  destruct (merge_fold_content chunks ([], []) []) as [_ Hcase].
  { split; [intros p Hp; discriminate Hp |]. left. now repeat split. }
  destruct (fold_left (TextSplitter.merge_step self) chunks ([], []))
    as [merged current]. simpl in Hcase.
  destruct Hcase as [(-> & -> & ->) | (Hcur & _ & Hjoin)]; [reflexivity |].
  destruct current as [|a current]; [congruence |]. exact Hjoin.
Qed.

End MergeContent.

(** The merge of three segments of ten characters with [chunk_size = 10]
    and [chunk_overlap = 3], and what is left without the overlaps. *)
Example merge_chunks_content_example :
  TextSplitter._merge_chunks (TextSplitter.mk 10 3 TextSplitter.DEFAULT_SEPARATORS)
    [lit ""; lit "aaaaaaaaaa"; lit "bbbbbbbbbb"; lit "cccccccccc"]
  = [lit "aaaaaaaaaa"; lit "aaa bbbbbbbbbb"; lit "bbb cccccccccc"]
  /\ fresh (TextSplitter.mk 10 3 TextSplitter.DEFAULT_SEPARATORS)
       [lit "aaaaaaaaaa"; lit "aaa bbbbbbbbbb"; lit "bbb cccccccccc"]
     = [lit "aaaaaaaaaa"; lit "bbbbbbbbbb"; lit "cccccccccc"].
Proof. split; reflexivity. Qed.

(** ** The splitter: the chunks of [split] *)

Section Strip.

Lemma lstrip_head (s : str) :
  match lstrip s with
  | c :: _ => isspace c = false
  | [] => True
  end.
Proof.
  induction s as [|c s IH]; simpl; [exact I |].
  destruct (isspace c) eqn:Ec; [exact IH | exact Ec].
Qed.

Lemma lstrip_idem (s : str) : lstrip (lstrip s) = lstrip s.
Proof.
  pose proof (lstrip_head s) as H.
  destruct (lstrip s) as [|c t]; [reflexivity |]. simpl. now rewrite H.
Qed.

Lemma lstrip_snoc (l : str) (c : ascii) :
  isspace c = false -> lstrip (l ++ [c]) = lstrip l ++ [c].
Proof.
  intros Hc. induction l as [|a l IH]; simpl; [now rewrite Hc |].
  destruct (isspace a); [exact IH | reflexivity].
Qed.

Lemma lstrip_blank (s : str) :
  List.Forall (fun c => isspace c = true) s -> lstrip s = [].
Proof.
  induction 1 as [|c s Hc _ IH]; simpl; [reflexivity |]. now rewrite Hc.
Qed.

(** Stripping a stripped string changes nothing. *)
Lemma strip_idem (s : str) : strip (strip s) = strip s.
Proof.
  unfold strip, rstrip.
  pose proof (lstrip_head s) as H.
  destruct (lstrip s) as [|c a]; [reflexivity |].
  simpl rev. rewrite (lstrip_snoc _ c H), rev_app_distr. simpl.
  rewrite H. simpl rev. rewrite rev_involutive.
  now rewrite (lstrip_snoc _ c H), lstrip_idem, rev_app_distr.
Qed.

End Strip.

Section SplitChunks.
Context {vector : Type}.
Variable self : TextSplitter.t.

(** X6. Every chunk [split] returns has a content that is not empty and
    has no whitespace at either end, carries the source path and the file
    name given, and has no page number and no embedding. *)
Theorem split_chunks_well_formed (text path name : str) :
  List.Forall
    (fun c : Chunk vector =>
       content c <> [] /\ strip (content c) = content c
       /\ source_path c = path /\ file_name c = name
       /\ page_number c = None /\ embedding c = None)
    (TextSplitter.split self text path name).
Proof.
  apply List.Forall_forall. intros c Hc. unfold TextSplitter.split in Hc.
  destruct (negb (truthy text) || negb (truthy (strip text))); [destruct Hc |].
  apply in_flat_map in Hc as ([i m] & _ & Hc).
  destruct (truthy (strip m)) eqn:Et; [| destruct Hc].
  destruct Hc as [<- | []]. simpl.
  split; [destruct (strip m); [discriminate | discriminate] |].
  split; [apply strip_idem |]. repeat split.
Qed.

(** X8. A text that is empty or all whitespace gives no chunk. *)
Theorem split_blank (text source_path file_name : str) :
  List.Forall (fun c => isspace c = true) text ->
  TextSplitter.split (vector:=vector) self text source_path file_name = [].
Proof.
  intros Hblank. unfold TextSplitter.split.
  assert (E : strip text = []).
  { unfold strip. now rewrite (lstrip_blank text Hblank). }
  rewrite E. simpl. now rewrite orb_true_r.
Qed.

End SplitChunks.

Lemma split_blank_witness :
  List.Forall (fun c => isspace c = true) (lit "   ")
  /\ TextSplitter.split (vector:=unit) blank_run_splitter (lit "   ")
       (lit "/test/doc.pdf") (lit "doc.pdf") = [].
Proof.
  assert (H : List.Forall (fun c => isspace c = true) (lit "   ")).
  { repeat constructor. }
  split; [exact H |]. apply (split_blank blank_run_splitter), H.
Defined.

From Stdlib Require Import Sorted.

Section SplitIds.
Context {vector : Type}.
Variable self : TextSplitter.t.

Lemma sorted_lt_NoDup (l : list Z) : StronglySorted Z.lt l -> NoDup l.
Proof.
  induction 1 as [|x l _ IH Hall]; [constructor |].
  apply NoDup_cons. split; [| exact IH].
  intros Hin. rewrite List.Forall_forall in Hall.
  apply list_elem_of_In, Hall in Hin. lia.
Qed.

(** The chunks made of the merged chunks numbered from [k] on: their
    indices increase and lie between [k] and the last number. *)
Lemma emitted_ids (path name : str) (total k : nat) (merged : list str) :
  List.Forall
    (fun c : Chunk vector =>
       (Z.of_nat k <= chunk_id c < Z.of_nat (k + length merged))%Z
       /\ total_chunks c = Some (Z.of_nat total)
       /\ source_path c = path)
    (flat_map
       (fun '(i, chunk_text) =>
          if truthy (strip chunk_text) then
            [ mkChunk (Z.of_nat i) (strip chunk_text) path name
                None (Some (Z.of_nat total)) None ]
          else [])
       (imap (fun i x => (k + i, x)) merged))
  /\ StronglySorted Z.lt
       (map chunk_id
          (flat_map
             (fun '(i, chunk_text) =>
                if truthy (strip chunk_text) then
                  [ mkChunk (vector:=vector) (Z.of_nat i) (strip chunk_text) path name
                      None (Some (Z.of_nat total)) None ]
                else [])
             (imap (fun i x => (k + i, x)) merged))).
Proof.
  revert k. induction merged as [|m merged IH]; intros k.
  - split; constructor.
  - rewrite imap_cons. cbn [flat_map].
    rewrite (imap_ext _ (fun i x => (S k + i, x)))
      by (intros; unfold compose; f_equal; lia).
    destruct (IH (S k)) as [Hall Hsorted].
    assert (Hall' : List.Forall
      (fun c : Chunk vector =>
         (Z.of_nat k < chunk_id c < Z.of_nat (k + length (m :: merged)))%Z
         /\ total_chunks c = Some (Z.of_nat total) /\ source_path c = path)
      (flat_map
         (fun '(i, chunk_text) =>
            if truthy (strip chunk_text) then
              [ mkChunk (Z.of_nat i) (strip chunk_text) path name
                  None (Some (Z.of_nat total)) None ]
            else [])
         (imap (fun i x => (S k + i, x)) merged))).
    { eapply List.Forall_impl; [| exact Hall]. simpl. intros c (Hr & Ht & Hs).
      split; [lia |]. now split. }
    destruct (truthy (strip m)); simpl.
    + split.
      * constructor.
        -- simpl. split; [lia |]. now split.
        -- eapply List.Forall_impl; [| exact Hall']. simpl. intros c (Hr & Ht & Hs).
           split; [lia |]. now split.
      * constructor; [exact Hsorted |].
        apply List.Forall_map. eapply List.Forall_impl; [| exact Hall'].
        simpl. intros c (Hr & _). lia.
    + split; [| exact Hsorted].
      eapply List.Forall_impl; [| exact Hall']. simpl. intros c (Hr & Ht & Hs).
      split; [lia |]. now split.
Qed.

(** X7. The indices of the chunks [split] returns increase strictly, each
    lies between 0 and the [total_chunks] the chunk records, and no two
    chunks of the result have the same key. *)
Theorem split_ids_increasing (text path name : str) :
  StronglySorted Z.lt (map chunk_id (TextSplitter.split (vector:=vector) self text path name))
  /\ List.Forall
       (fun c : Chunk vector =>
          exists t, total_chunks c = Some t /\ (0 <= chunk_id c < t)%Z)
       (TextSplitter.split self text path name)
  /\ NoDup (map document_id (TextSplitter.split (vector:=vector) self text path name)).
Proof.
  assert (H : exists total,
    List.Forall
      (fun c : Chunk vector =>
         (0 <= chunk_id c < Z.of_nat total)%Z
         /\ total_chunks c = Some (Z.of_nat total) /\ source_path c = path)
      (TextSplitter.split self text path name)
    /\ StronglySorted Z.lt
         (map chunk_id (TextSplitter.split (vector:=vector) self text path name))).
  { unfold TextSplitter.split.
    destruct (negb (truthy text) || negb (truthy (strip text)));
      [exists 0; split; constructor |].
    unfold enumerate.
    match goal with
    | |- context [imap _ ?merged] =>
        exists (length merged);
        exact (emitted_ids path name (length merged) 0 merged)
    end. }
  destruct H as (total & Hall & Hsorted).
  split; [exact Hsorted |]. split.
  - eapply List.Forall_impl; [| exact Hall]. simpl. intros c (Hr & Ht & _).
    now exists (Z.of_nat total).
  - replace (map document_id (TextSplitter.split (vector:=vector) self text path name))
      with (document_id_of path
              <$> map chunk_id (TextSplitter.split (vector:=vector) self text path name)).
    + apply NoDup_fmap_2; [| now apply sorted_lt_NoDup].
      intros k1 k2 Hk. unfold document_id_of in Hk.
      apply app_inv_head in Hk. apply app_inv_head in Hk.
      now apply str_of_int_inj.
    + rewrite List.Forall_forall in Hall.
      change (document_id_of path
                <$> map chunk_id (TextSplitter.split (vector:=vector) self text path name))
        with (map (document_id_of path)
                (map chunk_id (TextSplitter.split (vector:=vector) self text path name))).
      rewrite map_map. apply map_ext_in. intros c Hc.
      destruct (Hall c Hc) as (_ & _ & Hs). unfold document_id. now rewrite Hs.
Qed.

End SplitIds.

Lemma split_numbering_without_blanks_witness :
  List.Forall (fun m => truthy (strip m) = true)
    (TextSplitter._merge_chunks blank_run_splitter
       (TextSplitter._split_text blank_run_splitter
          (TextSplitter.separators blank_run_splitter)
          (strip (lit "First sentence. Second sentence."))))
  /\ contiguous_indices
       (TextSplitter.split (vector:=unit) blank_run_splitter
          (lit "First sentence. Second sentence.") (lit "/test/doc.pdf") (lit "doc.pdf"))
  /\ total_chunks_final
       (TextSplitter.split (vector:=unit) blank_run_splitter
          (lit "First sentence. Second sentence.") (lit "/test/doc.pdf") (lit "doc.pdf")).
Proof.
  assert (H : List.Forall (fun m => truthy (strip m) = true)
    (TextSplitter._merge_chunks blank_run_splitter
       (TextSplitter._split_text blank_run_splitter
          (TextSplitter.separators blank_run_splitter)
          (strip (lit "First sentence. Second sentence."))))).
  { vm_compute. repeat constructor. }
  split; [exact H |].
  apply (split_numbering_without_blanks (vector:=unit) blank_run_splitter), H.
Defined.

(** ** The splitter: construction *)

Lemma init_valid_witness :
  TextSplitter.init 1000 200 (Some 100) (Some 20) None = Ok blank_run_splitter
  /\ TextSplitter.chunk_overlap blank_run_splitter
     < TextSplitter.chunk_size blank_run_splitter.
Proof.
  split; [reflexivity |].
  apply (init_valid 1000 200 (Some 100) (Some 20) None). reflexivity.
Defined.

(** X10. An overlap of zero counts as not given: the splitter takes the
    overlap of the settings instead, and a chunk size that is not above it
    is rejected, though zero is below every chunk size. *)
Theorem init_zero_overlap (settings_chunk_size settings_chunk_overlap chunk_size : nat)
    (separators : option (list str)) :
  0 < chunk_size ->
  chunk_size <= settings_chunk_overlap ->
  exists msg,
    TextSplitter.init settings_chunk_size settings_chunk_overlap
      (Some chunk_size) (Some 0) separators = Raise (ValueError msg).
Proof.
  intros Hpos Hle. unfold TextSplitter.init.
  destruct chunk_size as [|n]; [lia |]. cbn [TextSplitter.or_default].
  destruct (Nat.leb_spec (S n) settings_chunk_overlap) as [_ | Hgt]; [| lia].
  eexists. reflexivity.
Qed.

Lemma init_zero_overlap_witness :
  0 < 100 /\ 100 <= 200
  /\ exists msg,
       TextSplitter.init 1000 200 (Some 100) (Some 0) None = Raise (ValueError msg).
Proof.
  split; [lia |]. split; [lia |].
  apply (init_zero_overlap 1000 200 100 None); lia.
Defined.

(** ** Chunk identity: the shape of a key *)

Section KeyShape.

Lemma string_of_uint_chars (u : Decimal.uint) :
  List.Forall int_char (list_ascii_of_string (NilEmpty.string_of_uint u)).
Proof.
  induction u; simpl; constructor; try exact IHu;
    unfold int_char; simpl; tauto.
Qed.

Lemma str_of_int_chars (k : Z) : List.Forall int_char (str_of_int k).
Proof.
  unfold str_of_int, NilZero.string_of_int.
  assert (Hu : forall u,
    List.Forall int_char (list_ascii_of_string (NilZero.string_of_uint u))).
  { intros u. unfold NilZero.string_of_uint.
    destruct u; try apply string_of_uint_chars.
    simpl. constructor; [unfold int_char; simpl; tauto | constructor]. }
  destruct (Z.to_int k) as [u | u]; [apply Hu |].
  simpl. constructor; [unfold int_char; simpl; tauto | apply Hu].
Qed.

Lemma first_occurrence {A} (x : A) (l1 l2 r1 r2 : list A) :
  l1 ++ x :: r1 = l2 ++ x :: r2 -> ~ In x l1 -> ~ In x l2 -> l1 = l2 /\ r1 = r2.
Proof.
  revert l2. induction l1 as [|a l1 IH]; intros [|b l2] E H1 H2; simpl in *.
  - injection E as E. now split.
  - injection E as -> E. tauto.
  - injection E as -> E. tauto.
  - injection E as -> E. destruct (IH l2 E) as [-> ->]; [tauto | tauto |]. now split.
Qed.

(** X11. Two keys are equal exactly when the indices are equal and the
    source paths are equal once their separators are replaced: sources
    collide through the sanitising and in no other way. *)
Theorem document_id_of_collision (p q : str) (k1 k2 : Z) :
  document_id_of p k1 = document_id_of q k2
  <-> replace_char "\"%char "_"%char (replace_char "/"%char "_"%char p)
      = replace_char "\"%char "_"%char (replace_char "/"%char "_"%char q)
      /\ k1 = k2.
Proof.
  split.
  - unfold document_id_of.
    set (a := replace_char "\"%char "_"%char (replace_char "/"%char "_"%char p)).
    set (b := replace_char "\"%char "_"%char (replace_char "/"%char "_"%char q)).
    intros E. apply (f_equal (@rev ascii)) in E.
    rewrite !rev_app_distr in E.
    change (rev (lit "#chunk_")) with ("_"%char :: lit "knuhc#") in E.
    rewrite <- !app_assoc in E. simpl in E.
    assert (Hd : forall k, ~ In "_"%char (rev (str_of_int k))).
    { intros k Hin. apply in_rev in Hin.
      pose proof (str_of_int_chars k) as Hc. rewrite List.Forall_forall in Hc.
      specialize (Hc _ Hin). unfold int_char in Hc. simpl in Hc.
      repeat (destruct Hc as [Hc | Hc]; [discriminate Hc |]). exact Hc. }
    apply first_occurrence in E as [E1 E2]; [| apply Hd | apply Hd].
    injection E2 as E2.
    apply (f_equal (@rev ascii)) in E1, E2. rewrite !rev_involutive in E1, E2.
    split; [exact E2 | now apply str_of_int_inj].
  - intros [E ->]. unfold document_id_of. now rewrite E.
Qed.

(** X12. No key contains a path separator. *)
Theorem document_id_of_no_separator (p : str) (k : Z) :
  ~ In "/"%char (document_id_of p k) /\ ~ In "\"%char (document_id_of p k).
Proof.
  assert (H : forall c, (c = "/"%char \/ c = "\"%char) -> ~ In c (document_id_of p k)).
  { intros c Hc Hin. unfold document_id_of in Hin.
    apply in_app_or in Hin as [Hin | Hin].
    - unfold replace_char in Hin.
      apply in_map_iff in Hin as (x & Hc1 & Hx).
      apply in_map_iff in Hx as (y & Hc2 & _).
      destruct (Ascii.eqb_spec x "\"%char) as [Ex | Hx1].
      + rewrite <- Hc1 in Hc. destruct Hc as [Hc | Hc]; discriminate Hc.
      + rewrite <- Hc1 in Hc. destruct Hc as [Hc | Hc]; [| contradiction].
        destruct (Ascii.eqb_spec y "/"%char) as [Ey | Hy1].
        * rewrite Hc in Hc2. discriminate Hc2.
        * rewrite Hc in Hc2. contradiction.
    - apply in_app_or in Hin as [Hin | Hin].
      + simpl in Hin. destruct Hc as [-> | ->];
          repeat (destruct Hin as [Hin | Hin]; [discriminate Hin |]); exact Hin.
      + pose proof (str_of_int_chars k) as Hk. rewrite List.Forall_forall in Hk.
        specialize (Hk _ Hin). unfold int_char in Hk. simpl in Hk.
        destruct Hc as [-> | ->];
          repeat (destruct Hk as [Hk | Hk]; [discriminate Hk |]); exact Hk. }
  split; apply H; [now left | now right].
Qed.

End KeyShape.

(** ** The batcher: what is sent, and how long it may wait *)

Section Requests.
Context {St vector : Type} `{!Services St vector}.
Import EmbeddingService.

Lemma max_chars_pos : 0 < 30000.
Proof. exact (proj1 (Nat.ltb_lt 0 30000) eq_refl). Qed.

(** A sanitised text is never empty and never longer than 30000
    characters. *)
Lemma clean_text_within (text : str) :
  clean_text text <> [] /\ length (clean_text text) <= 30000.
Proof.
  pose proof max_chars_pos as Hpos. unfold clean_text.
  generalize dependent 30000. intros n Hpos.
  destruct text as [|a text]; simpl; [split; [discriminate | lia] |].
  destruct (truthy (strip (a :: text))); [| split; [discriminate | simpl; lia]].
  destruct (Nat.ltb_spec n (S (length text))) as [Hlt | Hge].
  - split.
    + destruct n; [lia | simpl; discriminate].
    + rewrite length_take. lia.
  - split; [discriminate | exact Hge].
Qed.

Lemma request_embed_batch (batch : nat) (texts : list str) :
  0 < length texts <= batch ->
  appends (request_within (vector:=vector) batch) (_embed_batch texts).
Proof.
  intros Hlen. unfold _embed_batch.
  apply appends_bind; [| intros data; apply appends_lift].
  apply appends_io. intros r. simpl. rewrite length_map. split; [exact Hlen |].
  apply List.Forall_map, List.Forall_forall. intros text _. apply clean_text_within.
Qed.

Lemma request_retry_loop (batch attempts : nat) (delay : Z) (last_error : option exn)
    (texts : list str) :
  0 < length texts <= batch ->
  (1 <= delay <= MAX_RETRY_DELAY)%Z ->
  appends (request_within (vector:=vector) batch)
    (retry_loop attempts delay last_error texts).
Proof.
  intros Hlen. revert delay last_error.
  induction attempts as [|attempts IH]; intros delay last_error Hd.
  - simpl. destruct last_error; apply appends_raise.
  - simpl. apply appends_catch; [now apply request_embed_batch |].
    assert (Hretry : forall e,
      appends (request_within (vector:=vector) batch)
        (let* u := sleep delay in
         retry_loop attempts (Z.min (delay * 2) MAX_RETRY_DELAY) (Some e) texts)).
    { intros e. apply appends_bind.
      - intros w w' r [= <- <-]. exists [EvSleep delay]. split; [reflexivity |].
        constructor; [exact Hd | constructor].
      - intros _. apply IH. unfold MAX_RETRY_DELAY in *. lia. }
    intros [| | sc | msg | | | msg]; try apply appends_raise; try apply Hretry.
    destruct (is_server_error sc); [apply Hretry | apply appends_raise].
Qed.

Lemma request_embed_batches (batch : nat) (batches : list (list str))
    (all_embeddings : list (option vector)) :
  List.Forall (fun b => 0 < length b <= batch) batches ->
  appends (request_within (vector:=vector) batch) (embed_batches batches all_embeddings).
Proof.
  intros Hall. revert all_embeddings.
  induction Hall as [|b batches Hb _ IH]; intros acc; simpl.
  - apply appends_ret.
  - apply appends_bind; [| intros v; apply IH].
    apply request_retry_loop; [exact Hb |].
    unfold INITIAL_RETRY_DELAY, MAX_RETRY_DELAY. lia.
Qed.

(** X13. In every run of [embed_texts], whatever the remote answers, each
    call to the embedding service carries at least one and at most
    [batch_size] texts, none of them empty or longer than 30000 characters,
    and each wait lasts between one second and the ceiling. *)
Theorem embed_texts_requests (self : EmbeddingService.t) (texts : list str)
    (w : World St vector) :
  exists events,
    trace (fst (embed_texts self texts w)) = trace w ++ events
    /\ List.Forall (request_within (Z.to_nat (batch_size self))) events.
Proof.
  assert (H : appends (request_within (vector:=vector) (Z.to_nat (batch_size self)))
                (embed_texts self texts)).
  { unfold embed_texts. destruct (negb (truthy texts)); [apply appends_ret |].
    destruct (Z.eqb_spec (batch_size self) 0) as [_ | Hne]; [apply appends_raise |].
    destruct (Z.ltb_spec (batch_size self) 0) as [_ | Hge]; [apply appends_ret |].
    apply request_embed_batches. apply List.Forall_forall. intros p Hp.
    apply list_elem_of_In, list_elem_of_lookup in Hp as [i Hi].
    destruct (slices_pieces (Z.to_nat (batch_size self)) texts i p) as (Hne' & Hle & _);
      [lia | exact Hi |].
    split; [destruct p; [congruence | simpl; lia] | exact Hle]. }
  destruct (embed_texts self texts w) as [w' r] eqn:E.
  exact (H w w' r E).
Qed.

End Requests.

Section RetryBounds.
Context {St vector : Type} `{!Services St vector}.
Import EmbeddingService.

Lemma request_inputs_app (a b : list (event vector)) :
  request_inputs (a ++ b) = request_inputs a ++ request_inputs b.
Proof.
  induction a as [|ev a IH]; [reflexivity |].
  destruct ev; simpl; now rewrite ?IH.
Qed.

Lemma total_wait_app (a b : list (event vector)) :
  total_wait (a ++ b) = (total_wait a + total_wait b)%Z.
Proof.
  induction a as [|ev a IH]; [reflexivity |].
  destruct ev; simpl; rewrite ?IH; lia.
Qed.

(** X15. One batch costs at most [MAX_RETRIES] calls to the embedding
    service, every one of them with the same sanitised texts, and at most
    seven seconds of waiting in all. *)
Theorem embed_batch_with_retry_bounds (texts : list str) (w : World St vector) :
  exists events,
    trace (fst (_embed_batch_with_retry texts w)) = trace w ++ events
    /\ 1 <= length (request_inputs events) <= MAX_RETRIES
    /\ List.Forall (fun input => input = map clean_text texts) (request_inputs events)
    /\ (0 <= total_wait events <= 7)%Z.
Proof.
  unfold _embed_batch_with_retry. change INITIAL_RETRY_DELAY with (backoff 0).
  destruct (retry_loop_policy texts MAX_RETRIES 0 None w)
    as (failures & final & Htr & _ & Hcase).
  exists (retry_events (map clean_text texts) 0 failures ++ final).
  split; [exact Htr |].
  rewrite request_inputs_app, total_wait_app. unfold MAX_RETRIES in *.
  destruct Hcase as [(Hlen & -> & _) | (Hlen & response & -> & _)];
    destruct failures as [|e1 [|e2 [|e3 [|e4 failures]]]]; simpl in Hlen; try lia;
    simpl; (split; [lia |]); (split; [repeat constructor |]);
    vm_compute; split; discriminate.
Qed.

Lemma embed_batch_with_retry_answered (E : str -> vector) (texts : list str)
    (w : World St vector) :
  reordering_remote E ->
  exists s' data v,
    _embed_batch_with_retry texts w
    = (mkWorld s' (trace w ++ [EvEmbeddingsCreate (map clean_text texts) (Ok data)]),
       Ok v).
Proof.
  intros Hremote. unfold _embed_batch_with_retry, MAX_RETRIES. rewrite retry_loop_S.
  unfold _embed_batch, bind, io, lift.
  destruct (Hremote (ext w) (map clean_text texts)) as (s' & data & -> & Hperm).
  rewrite (place_reordered E _ data Hperm). eexists _, _, _. reflexivity.
Qed.

Lemma embed_batches_answered (E : str -> vector) (batches : list (list str))
    (all_embeddings : list (option vector)) (w : World St vector) :
  reordering_remote E ->
  exists events,
    trace (fst (embed_batches batches all_embeddings w)) = trace w ++ events
    /\ request_inputs events = map (map clean_text) batches
    /\ total_wait events = 0%Z.
Proof.
  intros Hremote. revert all_embeddings w.
  induction batches as [|batch batches IH]; intros acc w; simpl.
  - exists []. split; [now rewrite app_nil_r | now split].
  - unfold bind.
    destruct (embed_batch_with_retry_answered E batch w Hremote) as (s' & data & v & ->).
    match goal with
    | |- context [embed_batches batches ?acc' ?w1] =>
        destruct (IH acc' w1) as (events & Htr & Hin & Hw)
    end.
    exists (EvEmbeddingsCreate (map clean_text batch) (Ok data) :: events).
    split; [rewrite Htr; simpl; now rewrite <- app_assoc |].
    simpl. split; [now rewrite Hin | exact Hw].
Qed.

(** X17. With a remote that answers every call, [embed_texts] makes one
    call per batch of [batch_size] texts, in the order of the texts, each
    with the sanitised texts of the batch, and never waits. *)
Theorem embed_texts_one_call_per_batch (E : str -> vector) (self : EmbeddingService.t)
    (texts : list str) (w : World St vector) :
  reordering_remote E ->
  (0 < batch_size self)%Z ->
  exists events,
    trace (fst (embed_texts self texts w)) = trace w ++ events
    /\ request_inputs events
       = map (map clean_text) (slices (Z.to_nat (batch_size self)) texts)
    /\ total_wait events = 0%Z.
Proof.
  intros Hremote Hb. rewrite (embed_texts_positive self texts Hb).
  destruct texts as [|t texts]; cbn [truthy negb].
  - exists []. split; [simpl; now rewrite app_nil_r | now split].
  - now apply embed_batches_answered with (E := E).
Qed.

(** X16. A text with a character that is not whitespace and with at most
    30000 characters is sent as it is. *)
Theorem clean_text_unchanged (text : str) :
  truthy (strip text) = true ->
  length text <= 30000 ->
  clean_text text = text.
Proof.
  intros Hs Hlen. unfold clean_text. rewrite Hs.
  destruct text as [|a text]; [discriminate Hs |]. cbn [truthy andb].
  destruct (Nat.ltb_spec 30000 (length (a :: text))) as [Hlt | _]; [| reflexivity].
  exfalso. revert Hlen Hlt. generalize 30000. intros n. lia.
Qed.

End RetryBounds.

Lemma clean_text_unchanged_witness :
  truthy (strip (lit " some text ")) = true
  /\ length (lit " some text ") <= 30000
  /\ EmbeddingService.clean_text (lit " some text ") = lit " some text ".
Proof.
  assert (H : length (lit " some text ") <= 30000).
  { apply Nat.leb_le. vm_compute. reflexivity. }
  split; [reflexivity |]. split; [exact H |].
  apply clean_text_unchanged; [reflexivity | exact H].
Defined.

Lemma embed_texts_one_call_per_batch_witness :
  EmbeddingService.reordering_remote (Services0:=Fake.steady) (fun text => length text)
  /\ (0 < EmbeddingService.batch_size (EmbeddingService.mk 2))%Z
  /\ exists events,
       trace (fst (EmbeddingService.embed_texts (Services0:=Fake.steady)
                     (EmbeddingService.mk 2)
                     [lit "a"; lit "bb"; lit ""; lit "dddd"; lit "eeeee"] (mkWorld tt [])))
       = [] ++ events
       /\ request_inputs events
          = [[lit "a"; lit "bb"]; [lit " "; lit "dddd"]; [lit "eeeee"]]
       /\ total_wait events = 0%Z.
Proof.
  assert (H : EmbeddingService.reordering_remote (Services0:=Fake.steady)
                (fun text => length text)).
  { intros s input. exists s, (Fake.answer input). split; [reflexivity |].
    unfold Fake.answer. symmetry. apply Permutation_rev. }
  split; [exact H |]. split; [reflexivity |].
  apply (embed_texts_one_call_per_batch (Services0:=Fake.steady)
           (fun text => length text) (EmbeddingService.mk 2)
           [lit "a"; lit "bb"; lit ""; lit "dddd"; lit "eeeee"] (mkWorld tt []));
    [exact H | reflexivity].
Defined.

(** X14. The number of entries [embed_texts] returns depends on the sign of
    the batch size, which nothing validates. With a batch size of at least
    one, a run that returns has exactly one entry per text, whatever the
    remote answers. With a negative batch size the run calls nothing and
    returns no entry at all, however many texts it was given. With a batch
    size of zero and at least one text it raises [ValueError] and calls
    nothing. *)
Theorem embed_texts_one_entry_per_text {St vector : Type} `{!Services St vector}
    (self : EmbeddingService.t) (texts : list str) (w : World St vector) :
  ((0 < EmbeddingService.batch_size self)%Z ->
   forall w' v,
     EmbeddingService.embed_texts self texts w = (w', Ok v) -> length v = length texts)
  /\ ((EmbeddingService.batch_size self < 0)%Z ->
      EmbeddingService.embed_texts self texts w = (w, Ok []))
  /\ (EmbeddingService.batch_size self = 0%Z ->
      texts <> [] ->
      exists msg, EmbeddingService.embed_texts self texts w = (w, Raise (ValueError msg))).
Proof.
  split; [| split].
  - intros Hb w' v Ev. apply embed_texts_length in Ev.
    destruct (Z.ltb_spec 0 (EmbeddingService.batch_size self)); [exact Ev | lia].
  - intros Hb. now rewrite (embed_texts_negative self texts Hb).
  - intros Hb Ht. unfold EmbeddingService.embed_texts. rewrite Hb.
    destruct texts as [|t texts]; [congruence |]. cbn [truthy negb Z.eqb].
    eexists. reflexivity.
Qed.

Lemma embed_texts_one_entry_per_text_witness :
  (exists w' v,
     EmbeddingService.embed_texts (Services0:=Fake.services) (EmbeddingService.mk 2)
       [lit "a"; lit "bb"; lit "ccc"] (Fake.world Fake.quiet) = (w', Ok v)
     /\ length v = length [lit "a"; lit "bb"; lit "ccc"])
  /\ EmbeddingService.embed_texts (Services0:=Fake.services) (EmbeddingService.mk (-1))
       [lit "a"; lit "bb"; lit "ccc"] (Fake.world Fake.quiet)
     = (Fake.world Fake.quiet, Ok []).
Proof.
  split.
  - destruct (EmbeddingService.embed_texts (Services0:=Fake.services)
                (EmbeddingService.mk 2) [lit "a"; lit "bb"; lit "ccc"]
                (Fake.world Fake.quiet))
      as [w' [v | e]] eqn:E.
    + exists w', v. split; [reflexivity |].
      exact (proj1 (embed_texts_one_entry_per_text (Services0:=Fake.services)
                      (EmbeddingService.mk 2) [lit "a"; lit "bb"; lit "ccc"]
                      (Fake.world Fake.quiet)) eq_refl w' v E).
    + vm_compute in E. discriminate E.
  - apply (proj1 (proj2 (embed_texts_one_entry_per_text (Services0:=Fake.services)
                           (EmbeddingService.mk (-1)) [lit "a"; lit "bb"; lit "ccc"]
                           (Fake.world Fake.quiet)))).
    reflexivity.
Defined.

(** ** The reconciler: what is uploaded and what is deleted *)

Section ReconcilerTraffic.
Context {St vector : Type} `{!Services St vector}.


Lemma upsert_batch_traffic (documents : list (SearchDocument vector))
    (w : World St vector) :
  exists response,
    trace (fst (SearchIndexer._upsert_batch documents w))
    = trace w ++ [EvUploadDocuments documents response].
Proof.
  unfold SearchIndexer._upsert_batch, catch, bind, io, ret.
  destruct (upload_documents (ext w) documents) as [s' [results | e]];
    eexists; reflexivity.
Qed.

Lemma upsert_batches_traffic (batches : list (list (SearchDocument vector)))
    (total_success total_failed : nat) (w : World St vector) :
  exists events,
    trace (fst (SearchIndexer.upsert_batches batches total_success total_failed w))
    = trace w ++ events
    /\ upload_batches events = batches
    /\ List.Forall (fun ev => phase_of ev = Upsert) events.
Proof.
  revert total_success total_failed w.
  induction batches as [|batch batches IH]; intros ts tf w; simpl.
  - exists []. split; [now rewrite app_nil_r |]. split; [reflexivity | constructor].
  - unfold bind.
    destruct (upsert_batch_traffic batch w) as [response Htr].
    destruct (upsert_batch_counts batch w) as (w1 & s & f & E & _).
    rewrite E in Htr |- *. simpl in Htr.
    destruct (IH (ts + s) (tf + f) w1) as (events & Htr' & Hb & Hall).
    exists (EvUploadDocuments batch response :: events).
    split; [rewrite Htr', Htr; now rewrite <- app_assoc |].
    split; [simpl; now rewrite Hb | now constructor].
Qed.

(** X18. Given as many embeddings as there are chunks, and at least one,
    [upsert_chunks] uploads one document per chunk, in the order of the
    chunks, the document of chunk [i] carrying its key, its fields and the
    vector [i], all with the same timestamp; no upload has more than
    [BATCH_SIZE] documents or none; and it calls nothing but the upload. *)
Theorem upsert_chunks_uploads (chunks : list (Chunk vector))
    (embeddings : list (option vector)) (w : World St vector) :
  chunks <> [] ->
  length embeddings = length chunks ->
  exists events,
    trace (fst (SearchIndexer.upsert_chunks chunks (Some embeddings) w))
    = trace w ++ events
    /\ concat (upload_batches events)
       = zip_with
           (fun c e =>
              mkSearchDocument (document_id c) (content c) (source_path c)
                (file_name c) (chunk_id c) (utcnow (ext w)) e (page_number c)
                (total_chunks c))
           chunks embeddings
    /\ List.Forall (fun b => 0 < length b <= SearchIndexer.BATCH_SIZE)
         (upload_batches events)
    /\ List.Forall (fun ev => phase_of ev = Upsert) events.
Proof.
  intros Hc Hlen. unfold SearchIndexer.upsert_chunks.
  destruct chunks as [|c0 chunks0] eqn:Ec; [congruence |]. rewrite <- Ec in *.
  destruct embeddings as [|e0 embeddings0] eqn:Ee; [rewrite Ec in Hlen; discriminate |].
  rewrite <- Ee in *.
  replace (truthy chunks) with true by (rewrite Ec; reflexivity).
  replace (truthy embeddings) with true by (rewrite Ee; reflexivity).
  rewrite Hlen, Nat.eqb_refl. cbn [negb andb].
  match goal with
  | |- context [SearchIndexer.upsert_batches (slices _ ?docs) 0 0 w] =>
      destruct (upsert_batches_traffic (slices SearchIndexer.BATCH_SIZE docs) 0 0 w)
        as (events & Htr & Hb & Hall);
      set (documents := docs) in *
  end.
  exists events. split; [exact Htr |]. rewrite Hb.
  split; [| split; [| exact Hall]].
  - rewrite slices_concat by (unfold SearchIndexer.BATCH_SIZE; lia).
    subst documents. unfold SearchIndexer.attach.
    rewrite drop_ge by lia. rewrite app_nil_r.
    clear. revert embeddings. induction chunks as [|c chunks IH];
      intros [|e embeddings]; simpl; try reflexivity.
    now rewrite IH.
  - apply List.Forall_forall. intros b Hin.
    apply list_elem_of_In, list_elem_of_lookup in Hin as [i Hi].
    destruct (slices_pieces SearchIndexer.BATCH_SIZE documents i b) as (Hne & Hle & _);
      [unfold SearchIndexer.BATCH_SIZE; lia | exact Hi |].
    split; [destruct b; [congruence | simpl; lia] | exact Hle].
Qed.

End ReconcilerTraffic.

Lemma upsert_chunks_uploads_witness :
  Fake.sample_chunks <> []
  /\ length [Some 19; Some 20] = length Fake.sample_chunks
  /\ exists events,
       trace (fst (SearchIndexer.upsert_chunks (Services0:=Fake.services)
                     Fake.sample_chunks (Some [Some 19; Some 20])
                     (Fake.world Fake.quiet)))
       = [] ++ events
       /\ concat (upload_batches events)
          = [ mkSearchDocument (lit "_documents_test.pdf#chunk_0")
                (lit "First chunk content") (lit "/documents/test.pdf") (lit "test.pdf")
                0 0 (Some 19) None (Some 2%Z);
              mkSearchDocument (lit "_documents_test.pdf#chunk_1")
                (lit "Second chunk content") (lit "/documents/test.pdf") (lit "test.pdf")
                1 0 (Some 20) None (Some 2%Z) ]
       /\ List.Forall (fun b => 0 < length b <= SearchIndexer.BATCH_SIZE)
            (upload_batches events)
       /\ List.Forall (fun ev => phase_of ev = Upsert) events.
Proof.
  split; [discriminate |]. split; [reflexivity |].
  apply (upsert_chunks_uploads (Services0:=Fake.services) Fake.sample_chunks
           [Some 19; Some 20] (Fake.world Fake.quiet)); [discriminate | reflexivity].
Defined.

Section RemovalTraffic.
Context {St vector : Type} `{!Services St vector}.

Lemma delete_batches_traffic (batches : list (list str)) (total_deleted : nat)
    (w : World St vector) :
  exists events rest,
    trace (fst (SearchIndexer.delete_batches batches total_deleted w)) = trace w ++ events
    /\ batches = delete_batches_sent events ++ rest
    /\ List.Forall is_delete events
    /\ forall n, snd (SearchIndexer.delete_batches batches total_deleted w) = Ok n ->
         rest = []
         /\ (one_result_per_key -> n <= total_deleted + length (concat batches)).
Proof.
  revert total_deleted w. induction batches as [|batch batches IH]; intros total w; simpl.
  - exists [], []. split; [now rewrite app_nil_r |]. split; [reflexivity |].
    split; [constructor |]. intros n [= <-]. split; [reflexivity | lia].
  - unfold bind, io.
    destruct (delete_documents (ext w) batch) as [s' [results | e]] eqn:Ed.
    + match goal with
      | |- context [SearchIndexer.delete_batches batches ?t ?w1] =>
          destruct (IH t w1) as (events & rest & Htr & Hb & Hall & Hok)
      end.
      exists (EvDeleteDocuments batch (Ok results) :: events), rest.
      split; [rewrite Htr; simpl; now rewrite <- app_assoc |].
      split; [simpl; now rewrite Hb |]. split; [now constructor |].
      intros n Hn. destruct (Hok n Hn) as [-> Hle]. split; [reflexivity |].
      intros Hone. specialize (Hle Hone). apply Hone in Ed.
      pose proof (count_succeeded_le results). rewrite length_app. lia.
    + exists [EvDeleteDocuments batch (Raise e)], batches.
      split; [reflexivity |]. split; [reflexivity |].
      split; [now repeat constructor |]. intros n Hn. discriminate Hn.
Qed.

(** X19. [delete_by_source_path] makes exactly one search, its first call,
    and every call after it is a delete. When the search raises, it raises
    that error and deletes nothing. Otherwise the batches it submits for
    deletion are, in order, the first of the batches of [BATCH_SIZE] keys
    into which the keys the search returned are cut, so no delete carries
    more than [BATCH_SIZE] keys or none; and when it returns, it has
    submitted every one of these batches, and with a store that gives one
    result per key the count it returns does not exceed the number of keys
    found. *)
Theorem delete_by_source_path_traffic (source_path : str) (w : World St vector) :
  exists events,
    trace (fst (SearchIndexer.delete_by_source_path source_path w))
    = trace w ++ EvSearch source_path (snd (search_ids (ext w) source_path)) :: events
    /\ List.Forall is_delete events
    /\ match snd (search_ids (ext w) source_path) with
       | Ok doc_ids =>
           (exists rest,
              slices SearchIndexer.BATCH_SIZE doc_ids = delete_batches_sent events ++ rest)
           /\ List.Forall (fun b => 0 < length b <= SearchIndexer.BATCH_SIZE)
                (delete_batches_sent events)
           /\ forall n,
                snd (SearchIndexer.delete_by_source_path source_path w) = Ok n ->
                delete_batches_sent events = slices SearchIndexer.BATCH_SIZE doc_ids
                /\ concat (delete_batches_sent events) = doc_ids
                /\ (one_result_per_key -> n <= length doc_ids)
       | Raise e =>
           events = []
           /\ snd (SearchIndexer.delete_by_source_path source_path w) = Raise e
       end.
Proof.
  unfold SearchIndexer.delete_by_source_path, catch, bind, io.
  destruct (search_ids (ext w) source_path) as [s1 [doc_ids | e]]; cbn [snd].
  2: { exists []. split; [reflexivity |]. split; [constructor | now split]. }
  destruct doc_ids as [|id0 ids0] eqn:Ei; cbn [truthy negb].
  { exists []. split; [reflexivity |]. split; [constructor |].
    split; [now exists [] |]. split; [constructor |].
    intros n [= <-]. split; [reflexivity |]. split; [reflexivity | simpl; lia]. }
  rewrite <- Ei. clear Ei id0 ids0.
  match goal with
  | |- context [SearchIndexer.delete_batches ?b 0 ?w1] =>
      destruct (delete_batches_traffic b 0 w1) as (events & rest & Htr & Hb & Hall & Hok);
      destruct (SearchIndexer.delete_batches b 0 w1) as [w2 r2] eqn:E
  end.
  simpl in Htr, Hok.
  assert (Hbound : List.Forall (fun b => 0 < length b <= SearchIndexer.BATCH_SIZE)
                     (delete_batches_sent events)).
  { apply List.Forall_forall. intros b Hin.
    assert (Hin' : In b (slices SearchIndexer.BATCH_SIZE doc_ids)).
    { rewrite Hb. apply in_or_app. now left. }
    apply list_elem_of_In, list_elem_of_lookup in Hin' as [i Hi].
    destruct (slices_pieces SearchIndexer.BATCH_SIZE doc_ids i b) as (Hne & Hle & _);
      [unfold SearchIndexer.BATCH_SIZE; lia | exact Hi |].
    split; [destruct b; [congruence | simpl; lia] | exact Hle]. }
  exists events.
  destruct r2 as [n | e].
  - split; [simpl; rewrite Htr; simpl; now rewrite <- app_assoc |].
    split; [exact Hall |]. split; [now exists rest |].
    split; [exact Hbound |].
    intros n' [= <-]. destruct (Hok n eq_refl) as [-> Hle].
    rewrite app_nil_r in Hb. split; [now rewrite <- Hb |].
    split; [rewrite <- Hb; apply slices_concat; unfold SearchIndexer.BATCH_SIZE; lia |].
    intros Hone. specialize (Hle Hone).
    rewrite slices_concat in Hle by (unfold SearchIndexer.BATCH_SIZE; lia). lia.
  - split; [simpl; rewrite Htr; simpl; now rewrite <- app_assoc |].
    split; [exact Hall |]. split; [now exists rest |].
    split; [exact Hbound |]. intros n' Hn'. discriminate Hn'.
Qed.

End RemovalTraffic.

(** ** The pipeline: the order of its steps and the result *)

Section PipelineShape.
Context {St vector : Type} `{!Services St vector}.

Lemma upsert_chunks_sum (chunks : list (Chunk vector))
    (embeddings : option (list (option vector))) (w w' : World St vector)
    (success failed : nat) :
  SearchIndexer.upsert_chunks chunks embeddings w = (w', Ok (success, failed)) ->
  SearchIndexer.one_result_per_document ->
  success + failed = length chunks.
Proof.
  unfold SearchIndexer.upsert_chunks.
  destruct (truthy chunks) eqn:Et; simpl.
  2: { destruct chunks; [| discriminate]. now intros [= _ <- <-]. }
  set (given := match embeddings with Some l => l | None => [] end).
  destruct (truthy given && negb (length given =? length chunks)); [discriminate |].
  intros E Hone.
  match type of E with
  | SearchIndexer.upsert_batches ?b 0 0 w = _ =>
      destruct (upsert_batches_counts b 0 0 w) as (w1 & s & f & E1 & Hsum)
  end.
  rewrite E1 in E. injection E as _ <- <-. specialize (Hsum Hone).
  rewrite slices_concat in Hsum by (unfold SearchIndexer.BATCH_SIZE; lia).
  rewrite length_map in Hsum.
  destruct (truthy given); [rewrite attach_length in Hsum |]; lia.
Qed.

Lemma rank_block (k : nat) (l rest : list (event vector)) :
  List.Forall (fun ev => phase_rank (phase_of ev) = k) l ->
  StronglySorted le (map (fun ev => phase_rank (phase_of ev)) rest) ->
  List.Forall (fun ev => k <= phase_rank (phase_of ev)) rest ->
  StronglySorted le (map (fun ev => phase_rank (phase_of ev)) (l ++ rest))
  /\ List.Forall (fun ev => k <= phase_rank (phase_of ev)) (l ++ rest).
Proof.
  intros Hl Hs Hr. induction Hl as [|ev l Hev _ IH]; simpl; [now split |].
  destruct IH as [IH1 IH2]. split.
  - constructor; [exact IH1 |]. apply List.Forall_map.
    eapply List.Forall_impl; [| exact IH2]. simpl. intros ev' H'. lia.
  - constructor; [lia | exact IH2].
Qed.

(** The calls of the download, of the embedding, of the removal and of the
    upsert, one block after the other, are in the order of the pipeline. *)
Lemma phase_blocks_sorted (d e r u : list (event vector)) :
  List.Forall (fun ev => phase_of ev = Download) d ->
  List.Forall (fun ev => phase_of ev = Embed) e ->
  List.Forall (fun ev => phase_of ev = Removal) r ->
  List.Forall (fun ev => phase_of ev = Upsert) u ->
  StronglySorted le (map (fun ev => phase_rank (phase_of ev)) (d ++ e ++ r ++ u)).
Proof.
  intros Hd He Hr Hu.
  assert (H3 : StronglySorted le (map (fun ev => phase_rank (phase_of ev)) (u ++ []))
               /\ List.Forall (fun ev => 3 <= phase_rank (phase_of ev)) (u ++ [])).
  { apply rank_block; [| constructor | constructor].
    eapply List.Forall_impl; [| exact Hu]. simpl. now intros ev ->. }
  rewrite app_nil_r in H3. destruct H3 as [S3 G3].
  destruct (rank_block 2 r u) as [S2 G2]; [| exact S3 | |].
  { eapply List.Forall_impl; [| exact Hr]. simpl. now intros ev ->. }
  { eapply List.Forall_impl; [| exact G3]. simpl. intros; lia. }
  destruct (rank_block 1 e (r ++ u)) as [S1 G1]; [| exact S2 | |].
  { eapply List.Forall_impl; [| exact He]. simpl. now intros ev ->. }
  { eapply List.Forall_impl; [| exact G2]. simpl. intros; lia. }
  destruct (rank_block 0 d (e ++ r ++ u)) as [S0 _]; [| exact S1 | |].
  { eapply List.Forall_impl; [| exact Hd]. simpl. now intros ev ->. }
  { eapply List.Forall_impl; [| exact G1]. simpl. intros; lia. }
  exact S0.
Qed.

Lemma failed_consistent (blob_url file_name : str) (msg : message) :
  result_consistent (St:=St) (vector:=vector)
    (DocumentProcessor.failed blob_url file_name msg).
Proof.
  unfold result_consistent. simpl. split; [split; discriminate |].
  split; [discriminate |]. intros _. split; [lia | discriminate].
Qed.

(** A run of [process]: it returns a result, its calls come in four
    blocks, and the result is consistent. *)
Lemma process_shape (self : DocumentProcessor.t) (blob_url : str) (w : World St vector) :
  exists w' res d e r u,
    DocumentProcessor.process self blob_url w = (w', Ok res)
    /\ trace w' = trace w ++ d ++ e ++ r ++ u
    /\ List.Forall (fun ev => phase_of ev = Download) d
    /\ List.Forall (fun ev => phase_of ev = Embed) e
    /\ List.Forall (fun ev => phase_of ev = Removal) r
    /\ List.Forall (fun ev => phase_of ev = Upsert) u
    /\ result_consistent (St:=St) (vector:=vector) res.
Proof.
  unfold DocumentProcessor.process.
  set (file_name := after_last (lit "/") blob_url).
  unfold catch.
  destruct (negb (DocumentProcessor.is_supported file_name)).
  { eexists _, _, [], [], [], []. split; [reflexivity |].
    split; [simpl; now rewrite app_nil_r |].
    do 4 (split; [constructor |]). apply failed_consistent. }
  unfold bind at 1. unfold io at 1.
  destruct (download_document (ext w) blob_url) as [s1 [document | e1]].
  2: { eexists _, _, [EvDownload blob_url (Raise e1)], [], [], [].
       split; [reflexivity |]. split; [reflexivity |].
       split; [now repeat constructor |].
       do 3 (split; [constructor |]). apply failed_consistent. }
  set (w1 := mkWorld s1 (trace w ++ [EvDownload blob_url (Ok document)])).
  assert (Hd : List.Forall (fun ev : event vector => phase_of ev = Download)
                 [EvDownload blob_url (Ok document)]) by now repeat constructor.
  unfold bind at 1. unfold lift.
  destruct (extract_text document file_name) as [text | e2].
  2: { eexists _, _, [EvDownload blob_url (Ok document)], [], [], [].
       split; [reflexivity |]. split; [reflexivity |]. split; [exact Hd |].
       do 3 (split; [constructor |]). apply failed_consistent. }
  destruct (negb (truthy (strip text))).
  { eexists _, _, [EvDownload blob_url (Ok document)], [], [], [].
    split; [reflexivity |]. split; [reflexivity |]. split; [exact Hd |].
    do 3 (split; [constructor |]). apply failed_consistent. }
  set (chunks := TextSplitter.split (DocumentProcessor.splitter self) text blob_url file_name).
  destruct (truthy chunks) eqn:Hchunks; cbn [negb].
  2: { eexists _, _, [EvDownload blob_url (Ok document)], [], [], [].
       split; [reflexivity |]. split; [reflexivity |]. split; [exact Hd |].
       do 3 (split; [constructor |]). apply failed_consistent. }
  unfold bind at 1.
  destruct (EmbeddingService.embed_texts (DocumentProcessor.embedding_service self)
              (map content chunks) w1) as [w2 r2] eqn:E2.
  destruct (appends_embed_texts _ _ _ _ _ E2) as (ev2 & T2 & H2).
  destruct r2 as [embeddings | e3].
  2: { eexists _, _, [EvDownload blob_url (Ok document)], ev2, [], [].
       split; [reflexivity |].
       split; [rewrite T2; simpl; now rewrite app_nil_r, <- app_assoc |].
       split; [exact Hd |]. split; [exact H2 |].
       do 2 (split; [constructor |]). apply failed_consistent. }
  unfold bind at 1. rewrite delete_and_upsert_run.
  destruct (SearchIndexer.delete_by_source_path blob_url w2) as [w3 r3] eqn:E3.
  destruct (delete_by_source_path_removal _ _ _ _ E3) as (ev3 & T3 & H3 & _).
  destruct r3 as [deleted | e4].
  2: { eexists _, _, [EvDownload blob_url (Ok document)], ev2, ev3, [].
       split; [reflexivity |].
       split; [rewrite T3, T2; simpl; now rewrite app_nil_r, <- !app_assoc |].
       split; [exact Hd |]. split; [exact H2 |]. split; [exact H3 |].
       split; [constructor |]. apply failed_consistent. }
  destruct (SearchIndexer.upsert_chunks chunks (Some embeddings) w3) as [w4 r4] eqn:E4.
  destruct (appends_upsert_chunks _ _ _ _ _ E4) as (ev4 & T4 & H4).
  assert (T4' : trace w4
                = trace w ++ [EvDownload blob_url (Ok document)] ++ ev2 ++ ev3 ++ ev4).
  { rewrite T4, T3, T2. simpl. now rewrite <- !app_assoc. }
  destruct r4 as [[success_count failed_count] | e5].
  2: { eexists _, _, [EvDownload blob_url (Ok document)], ev2, ev3, ev4.
       split; [reflexivity |]. split; [exact T4' |].
       split; [exact Hd |]. split; [exact H2 |]. split; [exact H3 |].
       split; [exact H4 |]. apply failed_consistent. }
  eexists _, _, [EvDownload blob_url (Ok document)], ev2, ev3, ev4.
  split; [reflexivity |]. split; [exact T4' |].
  split; [exact Hd |]. split; [exact H2 |]. split; [exact H3 |]. split; [exact H4 |].
  unfold result_consistent. simpl.
  split; [destruct (failed_count =? 0); split; congruence |].
  split; [intros _; destruct chunks; [discriminate | simpl; lia] |].
  intros Hone. pose proof (upsert_chunks_sum _ _ _ _ _ _ E4 Hone) as Hsum.
  split; [lia |]. intros Hs. apply Nat.eqb_eq in Hs. lia.
Qed.

(** X20. [process] always returns a result and raises nothing. The result
    is a success exactly when it carries no error message; a success has
    created at least one chunk; and with a store that reports one result
    per document, the chunks indexed are no more than the chunks created,
    and as many in a success. *)
Theorem process_result_consistent (self : DocumentProcessor.t) (blob_url : str)
    (w : World St vector) :
  exists w' res,
    DocumentProcessor.process self blob_url w = (w', Ok res)
    /\ (pr_success res = true <-> pr_error_message res = None)
    /\ (pr_success res = true -> 0 < pr_chunks_created res)
    /\ (SearchIndexer.one_result_per_document (St:=St) (vector:=vector) ->
        pr_chunks_indexed res <= pr_chunks_created res
        /\ (pr_success res = true -> pr_chunks_indexed res = pr_chunks_created res)).
Proof.
  destruct (process_shape self blob_url w)
    as (w' & res & d & e & r & u & E & _ & _ & _ & _ & _ & Hres).
  exists w', res. split; [exact E | exact Hres].
Qed.

(** X22. The calls of a run of [process] come in the order of the
    pipeline: the download, then the calls and waits of the embedding, then
    the search and the deletes, then the uploads. In particular the index
    is not touched before every chunk has its vector. *)
Theorem process_phases_in_order (self : DocumentProcessor.t) (blob_url : str)
    (w : World St vector) :
  exists events,
    trace (fst (DocumentProcessor.process self blob_url w)) = trace w ++ events
    /\ StronglySorted le (map (fun ev => phase_rank (phase_of ev)) events).
Proof.
  destruct (process_shape self blob_url w)
    as (w' & res & d & e & r & u & E & Htr & Hd & He & Hr & Hu & _).
  exists (d ++ e ++ r ++ u). rewrite E. split; [exact Htr |].
  now apply phase_blocks_sorted.
Qed.

End PipelineShape.

(** ** The pipeline: a batch size below zero *)

Section NegativeBatchSize.
Context {St vector : Type} `{!Services St vector}.





End NegativeBatchSize.


(** On the double: the run is reported as a success with its one chunk
    indexed, the embedding service was never called, and the document
    uploaded has no vector. *)
Example process_negative_batch_size_run :
  let run :=
    DocumentProcessor.process (Services0:=Fake.services)
      (DocumentProcessor.mk (TextSplitter.mk 100 20 TextSplitter.DEFAULT_SEPARATORS)
         (EmbeddingService.mk (-16)))
      (lit "docs/a.pdf") (Fake.world (Fake.mk [] [Fake.stale] [] [] [] Fake.hello)) in
  snd run
  = Ok (mkProcessingResult (lit "docs/a.pdf") (lit "a.pdf") true 1 1 None)
  /\ map phase_of (trace (fst run)) = [Download; Removal; Removal; Upsert]
  /\ map doc_contentVector (concat (upload_batches (trace (fst run)))) = [None].
Proof. vm_compute. repeat split. Qed.

(** ** The pipeline: supported file names *)

Section Supported.

Lemma str_eqb_eq (a b : str) : str_eqb a b = true <-> a = b.
Proof.
  revert b. induction a as [|x a IH]; intros [|y b]; simpl; try (split; congruence).
  rewrite andb_true_iff, IH. split.
  - intros [Hx ->]. apply Ascii.eqb_eq in Hx. now subst.
  - intros [= -> ->]. split; [apply Ascii.eqb_refl | reflexivity].
Qed.

Lemma split_single_absent (c : ascii) (s : str) :
  ~ In c s -> split [c] s = [s] /\ contains [c] s = false.
Proof.
  unfold split. induction s as [|x s IH]; intros Hn; [now split |].
  simpl in Hn. destruct IH as [IH1 IH2]; [tauto |].
  simpl. destruct (Ascii.eqb_spec c x) as [-> | Hcx]; [tauto |].
  simpl. rewrite IH1. now split.
Qed.

Lemma split_single_last (c : ascii) (stem ext : str) :
  ~ In c ext ->
  (exists parts, split [c] (stem ++ c :: ext) = parts ++ [ext] /\ parts <> [])
  /\ contains [c] (stem ++ c :: ext) = true.
Proof.
  intros Hn. unfold split. induction stem as [|x stem IH]; simpl.
  - rewrite Ascii.eqb_refl. simpl.
    destruct (split_single_absent c ext Hn) as [E _]. unfold split in E. rewrite E.
    split; [| reflexivity]. exists [[]]. split; [reflexivity | discriminate].
  - destruct IH as [(parts & E & Hparts) IH2]. rewrite E, IH2.
    destruct (Ascii.eqb c x); simpl.
    + split; [| reflexivity]. exists ([] :: parts). split; [reflexivity | discriminate].
    + split; [| reflexivity].
      destruct parts as [|p parts]; [congruence |].
      exists ((x :: p) :: parts). split; [reflexivity | discriminate].
Qed.

Lemma last_occurrence (c : ascii) (s : str) :
  In c s -> exists stem ext, s = stem ++ c :: ext /\ ~ In c ext.
Proof.
  induction s as [|x s IH]; [intros [] |]. intros Hin.
  destruct (in_dec ascii_dec c s) as [Hs | Hs].
  - destruct (IH Hs) as (stem & ext & -> & Hn). now exists (x :: stem), ext.
  - destruct Hin as [-> | Hin]; [| contradiction]. now exists [], s.
Qed.

(** X21. A file name is supported exactly when it has a dot and the text
    after its last dot is [pdf] in upper or lower case. *)
Theorem is_supported_iff (file_name : str) :
  DocumentProcessor.is_supported file_name = true
  <-> exists stem ext,
        file_name = stem ++ lit "." ++ ext
        /\ ~ In "."%char ext
        /\ lower ext = lit "pdf".
Proof.
  assert (Hdot : forall stem ext, ~ In "."%char ext ->
            DocumentProcessor.is_supported (stem ++ lit "." ++ ext)
            = str_eqb (lower ext) (lit "pdf")).
  { intros stem ext Hn.
    unfold DocumentProcessor.is_supported, DocumentProcessor._get_extension.
    destruct (split_single_last "."%char stem ext Hn) as [(parts & E & _) Hc].
    change (lit "." ++ ext) with ("."%char :: ext). change (lit ".") with ["."%char].
    rewrite Hc. unfold after_last. rewrite E, last_snoc. reflexivity. }
  split.
  - intros Hs.
    destruct (in_dec ascii_dec "."%char file_name) as [Hin | Hn].
    + destruct (last_occurrence _ _ Hin) as (stem & ext & -> & Hn).
      exists stem, ext. split; [reflexivity |]. split; [exact Hn |].
      change ("."%char :: ext) with (lit "." ++ ext) in Hs.
      rewrite (Hdot stem ext Hn) in Hs. now apply str_eqb_eq.
    + unfold DocumentProcessor.is_supported, DocumentProcessor._get_extension in Hs.
      change (lit ".") with ["."%char] in Hs.
      destruct (split_single_absent "."%char file_name Hn) as [_ Hc].
      rewrite Hc in Hs. discriminate Hs.
  - intros (stem & ext & -> & Hn & Hl). rewrite (Hdot stem ext Hn).
    now apply str_eqb_eq.
Qed.

End Supported.

Example is_supported_examples :
  DocumentProcessor.is_supported (lit "Report.v2.PDF") = true
  /\ DocumentProcessor.is_supported (lit "report.pdf.txt") = false
  /\ DocumentProcessor.is_supported (lit "pdf") = false.
Proof. repeat split. Qed.

(** ** Further functions: a single text, the convenience splitter *)

Section SingleText.
Context {St vector : Type} `{!Services St vector}.

(** X23. Which branch of [embed_text] is taken depends on the sign of the
    batch size. With a batch size of at least one, a run that returns
    returns the first entry of the batcher's result, never the empty list
    of the last branch; and with a remote that answers every call that
    entry is the embedding of the sanitised text. With a negative batch
    size, [embed_text] calls nothing and returns the empty list of its last
    branch. *)
Theorem embed_text_entry (E : str -> vector) (self : EmbeddingService.t)
    (text : str) (w : World St vector) :
  ((0 < EmbeddingService.batch_size self)%Z ->
   forall w' r, embed_text self text w = (w', Ok r) -> exists e, r = Entry e)
  /\ ((EmbeddingService.batch_size self < 0)%Z ->
      embed_text self text w = (w, Ok NoEntry))
  /\ (EmbeddingService.reordering_remote E ->
      (0 < EmbeddingService.batch_size self)%Z ->
      exists w',
        embed_text self text w
        = (w', Ok (Entry (Some (E (EmbeddingService.clean_text text)))))).
Proof.
  unfold embed_text, bind, ret. split; [| split].
  - intros Hb w' r.
    destruct (EmbeddingService.embed_texts self [text] w) as [w1 [v | e]] eqn:Ev;
      [| discriminate].
    apply embed_texts_length in Ev.
    destruct (Z.ltb_spec 0 (EmbeddingService.batch_size self)); [| lia].
    destruct v as [|e v]; [discriminate Ev |]. intros [= _ <-]. now exists e.
  - intros Hb. now rewrite (embed_texts_negative self [text] Hb).
  - intros Hremote Hb. rewrite (embed_texts_positive self [text] Hb).
    cbn [truthy negb].
    assert (Es : slices (Z.to_nat (EmbeddingService.batch_size self)) [text] = [[text]]).
    { destruct (Z.to_nat (EmbeddingService.batch_size self)) as [|b] eqn:Eb; [lia |].
      unfold slices. simpl. now rewrite take_nil, drop_nil. }
    rewrite Es. cbn [EmbeddingService.embed_batches].
    unfold bind, ret.
    destruct (embed_batch_with_retry_reordered E [text] w Hremote) as (w' & ->).
    now exists w'.
Qed.

End SingleText.

Lemma embed_text_entry_witness :
  EmbeddingService.reordering_remote (Services0:=Fake.steady) (fun text => length text)
  /\ (0 < EmbeddingService.batch_size (EmbeddingService.mk 16))%Z
  /\ (exists w',
        embed_text (Services0:=Fake.steady) (EmbeddingService.mk 16) (lit "single text")
          (mkWorld tt [])
        = (w', Ok (Entry (Some 11))))
  /\ embed_text (Services0:=Fake.steady) (EmbeddingService.mk (-1)) (lit "single text")
       (mkWorld tt [])
     = (mkWorld tt [], Ok NoEntry).
Proof.
  assert (H : EmbeddingService.reordering_remote (Services0:=Fake.steady)
                (fun text => length text)).
  { intros s input. exists s, (Fake.answer input). split; [reflexivity |].
    unfold Fake.answer. symmetry. apply Permutation_rev. }
  split; [exact H |]. split; [reflexivity |]. split.
  - apply (proj2 (proj2 (embed_text_entry (Services0:=Fake.steady)
                           (fun text => length text) (EmbeddingService.mk 16)
                           (lit "single text") (mkWorld tt []))));
      [exact H | reflexivity].
  - apply (proj1 (proj2 (embed_text_entry (Services0:=Fake.steady)
                           (fun text => length text) (EmbeddingService.mk (-1))
                           (lit "single text") (mkWorld tt [])))).
    reflexivity.
Defined.

Section Convenience.
Context {vector : Type}.

(** X24. [split_text_to_chunks] either refuses the sizes or returns
    chunks none of which is longer than twice the chunk size in force, the
    one given or, when none or zero is given, that of the settings. *)
Theorem split_text_to_chunks_bounded (settings_size settings_overlap : nat)
    (text path name : str) (chunk_size chunk_overlap : option nat)
    (chunks : list (Chunk vector)) :
  split_text_to_chunks settings_size settings_overlap text path name
    chunk_size chunk_overlap = Ok chunks ->
  List.Forall
    (fun c => length (content c)
              <= 2 * TextSplitter.or_default chunk_size settings_size)
    chunks.
Proof.
  unfold split_text_to_chunks.
  destruct (TextSplitter.init settings_size settings_overlap chunk_size chunk_overlap None)
    as [splitter | e] eqn:Ei; [| discriminate].
  intros [= <-].
  pose proof (init_valid _ _ _ _ _ _ Ei) as Hvalid.
  assert (Hcs : TextSplitter.chunk_size splitter
                = TextSplitter.or_default chunk_size settings_size).
  { unfold TextSplitter.init in Ei.
    destruct (_ <=? _) in Ei; [discriminate |]. now injection Ei as <-. }
  rewrite <- Hcs. apply List.Forall_forall. intros c Hc.
  apply split_content in Hc as (m & Hm & ->).
  pose proof (merge_chunks_bounded splitter
    (TextSplitter._split_text splitter (TextSplitter.separators splitter) (strip text)))
    as Hb.
  rewrite List.Forall_forall in Hb. specialize (Hb m Hm).
  pose proof (strip_length m) as Hs.
  pose proof (split_text_bounded splitter (TextSplitter.separators splitter) (strip text))
    as Hseg.
  rewrite List.Forall_forall in Hseg.
  destruct Hb as [Hle | (s & Hin & Hle)]; [lia |].
  specialize (Hseg s Hin). simpl in Hseg. lia.
Qed.

End Convenience.

Lemma split_text_to_chunks_bounded_witness :
  split_text_to_chunks (vector:=unit) 1000 200
    (lit "aaaaaaaaaa bbbbbbbbbb cccccccccc") [] [] (Some 10) (Some 3)
  = Ok (TextSplitter.split (TextSplitter.mk 10 3 TextSplitter.DEFAULT_SEPARATORS)
          (lit "aaaaaaaaaa bbbbbbbbbb cccccccccc") [] [])
  /\ List.Forall
       (fun c : Chunk unit => length (content c) <= 2 * 10)
       (TextSplitter.split (TextSplitter.mk 10 3 TextSplitter.DEFAULT_SEPARATORS)
          (lit "aaaaaaaaaa bbbbbbbbbb cccccccccc") [] []).
Proof.
  split; [reflexivity |].
  apply (split_text_to_chunks_bounded 1000 200
           (lit "aaaaaaaaaa bbbbbbbbbb cccccccccc") [] [] (Some 10) (Some 3)).
  reflexivity.
Defined.

(** ** Further functions: the processor of the module *)

Section GetProcessor.

Lemma validate_required_nil (s : Settings) :
  validate_required s = []
  <-> storage_connection_string s <> [] /\ search_endpoint s <> []
      /\ search_api_key s <> [] /\ openai_endpoint s <> [] /\ openai_api_key s <> [].
Proof.
  unfold validate_required.
  destruct (storage_connection_string s), (search_endpoint s), (search_api_key s),
    (openai_endpoint s), (openai_api_key s); simpl;
    split; try discriminate; try (intros (? & ? & ? & ? & ?); congruence);
    intros _; repeat split; discriminate.
Qed.

(** X25. Once [get_processor] has returned a processor, the module holds
    it, and every later call returns that same processor, whatever the
    settings have become. *)
Theorem get_processor_singleton (settings : Settings)
    (global global' : option DocumentProcessor.t) (p : DocumentProcessor.t) :
  get_processor settings global = (global', Ok p) ->
  global' = Some p
  /\ forall settings', get_processor settings' global' = (global', Ok p).
Proof.
  unfold get_processor. intros E.
  assert (Hg : global' = Some p).
  { destruct global as [p0|]; [now injection E as <- <- |].
    destruct (truthy (validate_required settings)); [discriminate |].
    destruct (TextSplitter.init _ _ None None None); [| discriminate].
    now injection E as <- <-. }
  split; [exact Hg |]. intros settings'. now rewrite Hg.
Qed.

(** X26. The first call of [get_processor] builds a processor only when
    the five required settings are all set and the overlap of the settings
    is below their chunk size; the splitter built has these sizes. When it
    raises, the module holds no processor, and a later call tries again. *)
Theorem get_processor_first (settings : Settings) :
  match get_processor settings None with
  | (global', Ok p) =>
      global' = Some p
      /\ (storage_connection_string settings <> [] /\ search_endpoint settings <> []
          /\ search_api_key settings <> [] /\ openai_endpoint settings <> []
          /\ openai_api_key settings <> [])
      /\ settings_chunk_overlap settings < settings_chunk_size settings
      /\ TextSplitter.chunk_size (DocumentProcessor.splitter p)
         = settings_chunk_size settings
      /\ TextSplitter.chunk_overlap (DocumentProcessor.splitter p)
         = settings_chunk_overlap settings
  | (global', Raise e) => global' = None
  end.
Proof.
  unfold get_processor.
  destruct (validate_required settings) as [|m missing] eqn:Ev; [| reflexivity].
  cbn [truthy]. apply validate_required_nil in Ev.
  unfold TextSplitter.init. cbn [TextSplitter.or_default].
  destruct (Nat.leb_spec (settings_chunk_size settings) (settings_chunk_overlap settings));
    [reflexivity |].
  repeat split; try apply Ev; assumption.
Qed.

End GetProcessor.

Lemma get_processor_singleton_witness :
  get_processor
    (mkSettings (lit "conn") (lit "https://s") (lit "k1") (lit "https://o") (lit "k2")
       1000 200 16) None
  = (Some (DocumentProcessor.mk
             (TextSplitter.mk 1000 200 TextSplitter.DEFAULT_SEPARATORS)
             (EmbeddingService.mk 16)),
     Ok (DocumentProcessor.mk
           (TextSplitter.mk 1000 200 TextSplitter.DEFAULT_SEPARATORS)
           (EmbeddingService.mk 16)))
  /\ forall settings',
       get_processor settings'
         (Some (DocumentProcessor.mk
                  (TextSplitter.mk 1000 200 TextSplitter.DEFAULT_SEPARATORS)
                  (EmbeddingService.mk 16)))
       = (Some (DocumentProcessor.mk
                  (TextSplitter.mk 1000 200 TextSplitter.DEFAULT_SEPARATORS)
                  (EmbeddingService.mk 16)),
          Ok (DocumentProcessor.mk
                (TextSplitter.mk 1000 200 TextSplitter.DEFAULT_SEPARATORS)
                (EmbeddingService.mk 16))).
Proof.
  split; [reflexivity |].
  apply (get_processor_singleton
           (mkSettings (lit "conn") (lit "https://s") (lit "k1") (lit "https://o")
              (lit "k2") 1000 200 16) None).
  reflexivity.
Defined.

(** ** Blob paths *)

Section BlobPaths.

Lemma lstrip_char_head (c : ascii) (s : str) :
  match lstrip_char c s with
  | x :: _ => x <> c
  | [] => True
  end.
Proof.
  induction s as [|x s IH]; simpl; [exact I |].
  destruct (Ascii.eqb_spec x c); [exact IH | assumption].
Qed.

Lemma lstrip_char_snoc (c x : ascii) (l : str) :
  x <> c -> lstrip_char c (l ++ [x]) = lstrip_char c l ++ [x].
Proof.
  intros Hx. induction l as [|a l IH]; simpl.
  - destruct (Ascii.eqb_spec x c); [contradiction | reflexivity].
  - destruct (Ascii.eqb a c); [exact IH | reflexivity].
Qed.

(** A path stripped of [c] is empty, or neither begins nor ends with [c]. *)
Lemma strip_char_ends (c : ascii) (s : str) :
  strip_char c s = []
  \/ exists x middle y,
       x <> c /\ y <> c
       /\ (strip_char c s = [x] /\ x = y
           \/ strip_char c s = x :: middle ++ [y]).
Proof.
  unfold strip_char.
  pose proof (lstrip_char_head c s) as Hh.
  destruct (lstrip_char c s) as [|x u]; [now left |]. right.
  simpl rev. rewrite (lstrip_char_snoc c x _ Hh), rev_app_distr. simpl.
  pose proof (lstrip_char_head c (rev u)) as Hv.
  destruct (lstrip_char c (rev u)) as [|y v]; simpl.
  - exists x, [], x. split; [exact Hh |]. split; [exact Hh |]. now left.
  - exists x, (rev v), y. split; [exact Hh |]. split; [exact Hv |]. now right.
Qed.

Lemma split_once_spec (c : ascii) (s : str) :
  (~ In c s /\ split_once c s = [s])
  \/ exists a b, split_once c s = [a; b] /\ s = a ++ c :: b /\ ~ In c a.
Proof.
  induction s as [|x s IH]; [left; now split |].
  simpl. destruct (Ascii.eqb_spec x c) as [-> | Hx].
  - right. exists [], s. now repeat split.
  - destruct IH as [[Hn ->] | (a & b & -> & -> & Hn)].
    + left. split; [| reflexivity]. intros [Hh | Hin]; [now subst | contradiction].
    + right. exists (x :: a), b. split; [reflexivity |]. split; [reflexivity |].
      intros [Hh | Hin]; [now subst | contradiction].
Qed.

(** X27. For a path that is not an [https://] URL, [_get_blob_client]
    first parses the path and only then reads [self.client]. When the path,
    stripped of the slashes at its ends, has no slash, it raises
    [ValueError] and the service client is not built. Otherwise it asks for
    the blob whose container is the text before the first slash and whose
    name is the text after it, neither of them empty: the result is what
    the SDK answers for them, which is the error of [self.client] when the
    connection string is refused. *)
Theorem get_blob_client_path {service_client container_client blob_client : Type}
    `{!BlobSdk service_client container_client blob_client}
    (self : BlobService.t) (blob_url : str) :
  startswith (lit "https://") blob_url = false ->
  (~ In "/"%char (strip_char "/"%char blob_url)
   /\ exists msg,
        BlobService._get_blob_client self blob_url = (self, Raise (ValueError msg)))
  \/ (exists container_name blob_name,
        strip_char "/"%char blob_url = container_name ++ lit "/" ++ blob_name
        /\ ~ In "/"%char container_name
        /\ container_name <> [] /\ blob_name <> []
        /\ BlobService._get_blob_client self blob_url
           = (fst (BlobService.client self),
              match snd (BlobService.client self) with
              | Ok service =>
                  match get_container_client service container_name with
                  | Ok container => get_blob_client container blob_name
                  | Raise e => Raise e
                  end
              | Raise e => Raise e
              end)).
Proof.
  intros Hurl. unfold BlobService._get_blob_client. rewrite Hurl.
  destruct (split_once_spec "/"%char (strip_char "/"%char blob_url))
    as [[Hn ->] | (a & b & -> & E & Hn)].
  - left. split; [exact Hn | eexists; reflexivity].
  - right. exists a, b. split; [exact E |]. split; [exact Hn |].
    assert (Hne : a <> [] /\ b <> []); [| split; [apply Hne |]; split; [apply Hne |];
      now destruct (BlobService.client self) as [self' [service | e]]].
    destruct (strip_char_ends "/"%char blob_url)
      as [E0 | (x & middle & y & Hx & Hy & [[E1 _] | E1])].
    + rewrite E0 in E. destruct a; discriminate.
    + rewrite E1 in E. destruct a as [|a0 [|a1 a]]; try discriminate E.
      injection E as -> _. contradiction.
    + rewrite E1 in E. split.
      * destruct a; [| discriminate]. injection E as -> _. contradiction.
      * intros ->. change (x :: middle ++ [y]) with ((x :: middle) ++ [y]) in E.
        change (a ++ ["/"%char]) with (a ++ ["/"%char]) in E.
        apply app_inj_tail in E as [_ ->]. contradiction.
Qed.

End BlobPaths.

Lemma get_blob_client_path_witness :
  startswith (lit "https://") (lit "/documents/reports/a.pdf") = false
  /\ ((~ In "/"%char (strip_char "/"%char (lit "/documents/reports/a.pdf"))
       /\ exists msg,
            BlobService._get_blob_client (BlobSdk0:=fake_sdk)
              (BlobService.mk (lit "UseDevelopmentStorage=true") None)
              (lit "/documents/reports/a.pdf")
            = (BlobService.mk (lit "UseDevelopmentStorage=true") None,
               Raise (ValueError msg)))
      \/ (exists container_name blob_name,
            strip_char "/"%char (lit "/documents/reports/a.pdf")
            = container_name ++ lit "/" ++ blob_name
            /\ ~ In "/"%char container_name
            /\ container_name <> [] /\ blob_name <> []
            /\ BlobService._get_blob_client (BlobSdk0:=fake_sdk)
                 (BlobService.mk (lit "UseDevelopmentStorage=true") None)
                 (lit "/documents/reports/a.pdf")
               = (BlobService.mk (lit "UseDevelopmentStorage=true")
                    (Some (lit "UseDevelopmentStorage=true")),
                  Ok (InContainer container_name blob_name)))).
Proof.
  split; [reflexivity |].
  apply (get_blob_client_path (BlobSdk0:=fake_sdk)
           (BlobService.mk (lit "UseDevelopmentStorage=true") None)
           (lit "/documents/reports/a.pdf")).
  reflexivity.
Defined.

(** The container is the text before the first slash. *)
Example get_blob_client_nested :
  BlobService._get_blob_client (BlobSdk0:=fake_sdk)
    (BlobService.mk (lit "UseDevelopmentStorage=true") None)
    (lit "/documents/reports/a.pdf")
  = (BlobService.mk (lit "UseDevelopmentStorage=true")
       (Some (lit "UseDevelopmentStorage=true")),
     Ok (InContainer (lit "documents") (lit "reports/a.pdf"))).
Proof. reflexivity. Qed.

(** With a blank connection string, which is the default of the settings,
    a well-formed path gets the error of the service client; a path without
    a slash is refused before the service client is read. *)
Example get_blob_client_blank_connection :
  BlobService._get_blob_client (BlobSdk0:=fake_sdk) (BlobService.mk [] None)
    (lit "documents/a.pdf")
  = (BlobService.mk [] None,
     Raise (ValueError (lit "Connection string is either blank or malformed.")))
  /\ exists msg,
       BlobService._get_blob_client (BlobSdk0:=fake_sdk) (BlobService.mk [] None)
         (lit "a.pdf")
       = (BlobService.mk [] None, Raise (ValueError (lit "Invalid blob path: " ++ msg))).
Proof. split; [reflexivity | eexists; reflexivity]. Qed.

Lemma split_by_size_partition_witness :
  0 < TextSplitter.chunk_size (TextSplitter.mk 4 1 TextSplitter.DEFAULT_SEPARATORS)
  /\ TextSplitter._split_by_size (TextSplitter.mk 4 1 TextSplitter.DEFAULT_SEPARATORS)
       (lit "abcdefghij") = [lit "abcd"; lit "efgh"; lit "ij"]
  /\ concat (TextSplitter._split_by_size
               (TextSplitter.mk 4 1 TextSplitter.DEFAULT_SEPARATORS) (lit "abcdefghij"))
     = lit "abcdefghij".
Proof.
  split; [simpl; lia |]. split; [reflexivity |].
  apply (split_by_size_partition (TextSplitter.mk 4 1 TextSplitter.DEFAULT_SEPARATORS)
           (lit "abcdefghij")).
  simpl. lia.
Defined.
